(** * STEGO evaluation harness: a shallow embedding of [plot_pr_curves.py]
      and [create-dataset.py]

    Tensor scalars are modelled as extended reals ([fval]): a finite real
    number, the two infinities, or NaN.  Arithmetic on finite values is exact
    real arithmetic (rounding, overflow, underflow and the sign of zero are
    not modelled); the special values follow IEEE-754, which is what makes a
    division of zero by zero observable as NaN.  Statements about [fval]
    are limited to what rounding to nearest preserves; where single precision
    decides the outcome, the arithmetic of [torch.float32] itself is used
    ([Binary32], on the Standard Library's [SpecFloat]). *)

From Stdlib Require Import Reals Lra Lia ZArith Ascii.
From Stdlib Require SpecFloat.
From stdpp Require Import gmap strings list sorting pretty.

(** ** Python exceptions and results *)

Inductive exn : Type :=
  | AttributeError (attr : string)
  | KeyError (key : string)
  | IndexError
  | RuntimeError (what : string)
  | ValueError
  | OverflowError
  | TypeError (what : string).

Inductive result (A : Type) : Type :=
  | Ok (a : A)
  | Raise (e : exn).
Arguments Ok {A} a.
Arguments Raise {A} e.

#[global] Instance result_ret : MRet result := fun A a => Ok a.
#[global] Instance result_bind : MBind result := fun A B k r =>
  match r with
  | Ok a => k a
  | Raise e => Raise e
  end.

(** State-and-exception monad: a raised exception keeps the state reached so
    far, as a Python exception leaves earlier mutations in place. *)
Definition M (S A : Type) : Type := S → result A * S.

#[global] Instance M_ret {S} : MRet (M S) := fun A a s => (Ok a, s).
#[global] Instance M_bind {S} : MBind (M S) := fun A B k m s =>
  match m s with
  | (Ok a, s') => k a s'
  | (Raise e, s') => (Raise e, s')
  end.

Definition lift {S A} (r : result A) : M S A := fun s => (r, s).
Definition modify {S} (f : S → S) : M S unit := fun s => (Ok tt, f s).

(** ** Scalars *)

Module Scalar.

Local Open Scope R_scope.

Inductive fval : Type :=
  | Fin (r : R)
  | PInf
  | NInf
  | NaN.

Definition is_finite (x : fval) : Prop :=
  match x with Fin _ => True | _ => False end.

(** The infinity with the sign of [r]; NaN when [r] is zero. *)
Definition signed_inf (r : R) : fval :=
  match total_order_T r 0 with
  | inleft (left _) => NInf
  | inleft (right _) => NaN
  | inright _ => PInf
  end.

Definition fneg (x : fval) : fval :=
  match x with
  | Fin r => Fin (- r)
  | PInf => NInf
  | NInf => PInf
  | NaN => NaN
  end.

Definition fabs (x : fval) : fval :=
  match x with
  | Fin r => Fin (Rabs r)
  | PInf | NInf => PInf
  | NaN => NaN
  end.

Definition fexp (x : fval) : fval :=
  match x with
  | Fin r => Fin (exp r)
  | PInf => PInf
  | NInf => Fin 0
  | NaN => NaN
  end.

Definition fsqrt (x : fval) : fval :=
  match x with
  | Fin r => if Rlt_dec r 0 then NaN else Fin (sqrt r)
  | PInf => PInf
  | NInf | NaN => NaN
  end.

Definition fadd (x y : fval) : fval :=
  match x, y with
  | NaN, _ | _, NaN => NaN
  | Fin a, Fin b => Fin (a + b)
  | PInf, NInf | NInf, PInf => NaN
  | PInf, _ | _, PInf => PInf
  | NInf, _ | _, NInf => NInf
  end.

Definition fsub (x y : fval) : fval := fadd x (fneg y).

Definition fmul (x y : fval) : fval :=
  match x, y with
  | NaN, _ | _, NaN => NaN
  | Fin a, Fin b => Fin (a * b)
  | Fin a, PInf | PInf, Fin a => signed_inf a
  | Fin a, NInf | NInf, Fin a => signed_inf (- a)
  | PInf, PInf | NInf, NInf => PInf
  | PInf, NInf | NInf, PInf => NInf
  end.

Definition fdiv (x y : fval) : fval :=
  match x, y with
  | NaN, _ | _, NaN => NaN
  | Fin a, Fin b => if Req_dec_T b 0 then signed_inf a else Fin (a / b)
  | Fin _, (PInf | NInf) => Fin 0
  | (PInf | NInf), (PInf | NInf) => NaN
  | PInf, Fin b => if Rlt_dec b 0 then NInf else PInf
  | NInf, Fin b => if Rlt_dec b 0 then PInf else NInf
  end.

(** [torch.min] and [torch.max] of two values: NaN wins. *)
Definition fmin (x y : fval) : fval :=
  match x, y with
  | NaN, _ | _, NaN => NaN
  | NInf, _ | _, NInf => NInf
  | PInf, z | z, PInf => z
  | Fin a, Fin b => Fin (Rmin a b)
  end.

Definition fmax (x y : fval) : fval :=
  match x, y with
  | NaN, _ | _, NaN => NaN
  | PInf, _ | _, PInf => PInf
  | NInf, z | z, NInf => z
  | Fin a, Fin b => Fin (Rmax a b)
  end.

(** Truncation toward zero, as [int(x)] and a cast to an integer dtype do. *)
Definition Rtrunc (r : R) : Z :=
  if Rle_dec 0 r then Int_part r else (- Int_part (- r))%Z.

End Scalar.
Export Scalar.

(** ** Tensors

    A tensor value is its shape and its elements in row-major order.  A
    zero-dimensional tensor (a Python float, a [Parameter] holding one number,
    the result of [min()]) is a bare [fval]. *)

Record tensor : Type := Tensor { shape : list nat; data : list fval }.

Definition numel (shp : list nat) : nat := foldr Nat.mul 1%nat shp.

Definition full (shp : list nat) (x : fval) : tensor :=
  {| shape := shp; data := replicate (numel shp) x |}.

Definition zeros (shp : list nat) : tensor := full shp (Fin 0).

(** Unary elementwise operation, also used for tensor-with-scalar arithmetic. *)
Definition t_map (f : fval → fval) (t : tensor) : tensor :=
  {| shape := shape t; data := f <$> data t |}.

(** Binary elementwise operation on two tensors.  Only the equal-shape case of
    torch's broadcasting is modelled; operands of different shapes are
    reported as an error. *)
Definition t_zip (f : fval → fval → fval) (a b : tensor) : result tensor :=
  if decide (shape a = shape b)
  then Ok {| shape := shape a; data := zip_with f (data a) (data b) |}
  else Raise (RuntimeError "operand shapes differ").

Definition t_neg := t_map fneg.
Definition t_exp := t_map fexp.
Definition t_div_s (t : tensor) (s : fval) := t_map (λ x, fdiv x s) t.
Definition t_sub_s (t : tensor) (s : fval) := t_map (λ x, fsub x s) t.
Definition s_mul_t (s : fval) (t : tensor) := t_map (fmul s) t.
Definition t_add := t_zip fadd.
Definition t_sub := t_zip fsub.

(** ** The pairwise potential, [CRFModule] *)

Module CRFModule.

Record t : Type := Build {
  w1 : fval; w2 : fval; shift : fval;
  alpha : fval; beta : fval; gamma : fval
}.

(** [CRFModule.__init__] *)
Definition init : t :=
  {| w1 := Fin 10; w2 := Fin 3; shift := Fin (-0.3);
     alpha := Fin 0.5; beta := Fin 0.15; gamma := Fin 0.05 |}.

(** [CRFModule.forward] *)
Definition forward (self : t) (coord_diff img_diff : tensor) : result tensor :=
  e1 ← t_sub (t_div_s (t_neg coord_diff) (fmul (Fin 2) (fexp (alpha self))))
             (t_div_s img_diff (fmul (Fin 2) (fexp (beta self))));
  let k1 := s_mul_t (fabs (w1 self)) (t_exp e1) in
  let k2 := s_mul_t (fabs (w2 self))
              (t_exp (t_div_s (t_neg coord_diff)
                        (fmul (Fin 2) (fexp (gamma self))))) in
  s ← t_add k1 k2;
  Ok (t_sub_s s (shift self)).

(** The same expression on one pair of elements. *)
Definition potential (self : t) (c i : fval) : fval :=
  fsub (fadd (fmul (fabs (w1 self))
                (fexp (fsub (fdiv (fneg c) (fmul (Fin 2) (fexp (alpha self))))
                            (fdiv i (fmul (Fin 2) (fexp (beta self)))))))
             (fmul (fabs (w2 self))
                (fexp (fdiv (fneg c) (fmul (Fin 2) (fexp (gamma self)))))))
       (shift self).

(** The potential as the specification writes it, over the reals. *)
Definition potential_spec (w1 w2 shift alpha beta gamma c i : R) : R :=
  (Rabs w1 * exp (- c / (2 * exp alpha) - i / (2 * exp beta))
   + Rabs w2 * exp (- c / (2 * exp gamma))
   - shift)%R.

End CRFModule.

(** ** Image-shaped tensors

    A tensor in (n, c, h, w) layout (an image batch, a feature map, the output
    of [sample]) is represented channels-last, as n images of h rows of w
    channel vectors.  [permute(0, 2, 3, 1)] and [permute(0, 3, 1, 2)], which
    convert between the two layouts, are therefore the identity on this
    representation, and a reduction over [dim=1] acts on the innermost list.
    A coordinate tensor (n, s, s, 2) has the same nesting. *)

Abbreviation tensor4 := (list (list (list (list fval)))).
Abbreviation labelmap := (list (list (list Z))).

Definition flatten4 (t : tensor4) : list fval := concat (concat (concat t)).

(** All channel vectors of one image, in row-major order. *)
Definition vectors (img : list (list (list fval))) : list (list fval) := concat img.

Definition dims4 (t : tensor4) : nat * nat * nat * nat :=
  let img := default [] (head t) in
  let row := default [] (head img) in
  (length t, length img, length row, length (default [] (head row))).

(** Apply [f] at the third level of nesting: to every pixel of a label map,
    to every channel vector of an image-shaped tensor. *)
Definition map3 {A B} (f : A → B) : list (list (list A)) → list (list (list B)) :=
  fmap (M:=list) (fmap (M:=list) (fmap (M:=list) f)).

Definition mapM3 {A B} (f : A → result B)
  : list (list (list A)) → result (list (list (list B))) :=
  mapM (M:=result) (mapM (M:=result) (mapM (M:=result) f)).

Definition map4 (f : fval → fval) : tensor4 → tensor4 :=
  map3 (fmap (M:=list) f).

(** [t.reshape(shp)] of the elements [flat]. *)
Definition t_reshape (shp : list nat) (flat : list fval) : result tensor :=
  if decide (length flat = numel shp)
  then Ok {| shape := shp; data := flat |}
  else Raise (RuntimeError "shape is invalid for input size").

(** [t.reshape(n, -1, 1, d)] and [t.reshape(n, 1, -1, d)] of the elements
    [flat]: [n] groups of as many [d]-vectors as the elements allow. *)
Definition reshape_vectors (n d : nat) (flat : list fval)
  : result (list (list (list fval))) :=
  if decide (n * d = 0)%nat
  then Raise (RuntimeError "cannot reshape: unspecified dimension is ambiguous")
  else if decide (length flat `mod` (n * d) = 0)%nat
  then let k := (length flat `div` (n * d))%nat in
       Ok (reshape (replicate k d) <$> reshape (replicate n (k * d)%nat) flat)
  else Raise (RuntimeError "shape is invalid for input size").

Definition fsquare (x : fval) : fval := fmul x x.

Definition fsum (l : list fval) : fval := foldr fadd (Fin 0) l.

Definition dot (a b : list fval) : fval := fsum (zip_with fmul a b).

(** [(A.reshape(n,-1,1,d) - B.reshape(n,1,-1,d)).square().sum(-1)] on the
    vectors of one image: the squared distance of every vector of [A] to every
    vector of [B]. *)
Definition pairwise_sq_dist (A B : list (list fval)) : list fval :=
  a ← A; b ← B; [fsum (fsquare <$> zip_with fsub a b)].

(** [F.one_hot(labels, num_classes).to(torch.float)]. *)
Definition one_hot_vec (num_classes : nat) (z : Z) : result (list fval) :=
  if decide (0 ≤ z < Z.of_nat num_classes)%Z
  then Ok ((λ c, if decide (c = Z.to_nat z) then Fin 1 else Fin 0)
             <$> seq 0 num_classes)
  else Raise (RuntimeError "Class values must be non-negative and smaller than num_classes").

Definition one_hot (labels : labelmap) (num_classes : nat) : result tensor4 :=
  mapM3 (one_hot_vec num_classes) labels.

(** [x > y] as [argmax] orders values: NaN is the largest. *)
Definition fgt (x y : fval) : bool :=
  match x, y with
  | _, NaN => false
  | NaN, _ => true
  | _, PInf => false
  | PInf, _ => true
  | NInf, _ => false
  | _, NInf => true
  | Fin a, Fin b => if Rlt_dec b a then true else false
  end.

(** Index of the first maximal element. *)
Fixpoint argmax_from (i best : nat) (bv : fval) (l : list fval) : nat :=
  match l with
  | [] => best
  | x :: l' => if fgt x bv then argmax_from (S i) i x l'
               else argmax_from (S i) best bv l'
  end.

Definition argmax (v : list fval) : result nat :=
  match v with
  | [] => Raise IndexError
  | x :: l => Ok (argmax_from 1 0 x l)
  end.

(** [t.argmax(1)] of an image-shaped tensor. *)
Definition argmax1 (t : tensor4) : result (list (list (list nat))) :=
  mapM3 argmax t.

(** ** Helpers of [modules.py]

    Modelled from the spec: [norm] and [tensor_correlation] are imported from
    [modules], which is not part of the sources.  Section 4.3 of the
    specification describes them: a sampled vector set is "normalized
    per-vector (unit L2 norm)", and the correlation is "the full pairwise
    dot-product tensor (n, k1, k2)" reshaped to (n, h1, w1, h2, w2); differing
    channel counts "fail immediately". *)

Definition l2norm (v : list fval) : fval := fsqrt (dot v v).

Definition normalize (v : list fval) : list fval :=
  (λ x, fdiv x (l2norm v)) <$> v.

Definition norm (t : tensor4) : tensor4 := map3 normalize t.

(** The dot product of every vector of [A] with every vector of [B]. *)
Definition correlate (A B : list (list fval)) : list fval :=
  a ← A; b ← B; [dot a b].

Definition tensor_correlation (a b : tensor4) : result tensor :=
  let '(n1, h1, w1, c1) := dims4 a in
  let '(n2, h2, w2, c2) := dims4 b in
  if decide (n1 = n2 ∧ c1 = c2)
  then Ok {| shape := [n1; h1; w1; h2; w2];
             data := concat (zip_with (λ A B, correlate (vectors A) (vectors B)) a b) |}
  else Raise (RuntimeError "operands do not agree in batch size or channel count").

(** ** Collaborators

    Everything [plot_pr_curves.py] imports from [modules], [utils], [data]
    and torch's random generator is taken as given: [sample] (bilinear
    sampling of an image-shaped tensor at a coordinate tensor), the model
    loaders and constructors, and [torch.rand]. *)

Class Collaborators : Type := {
  backbone : Type;
  metrics : Type;
  colormap : Type;
  generator : Type;
  sample : tensor4 → tensor4 → tensor4;
  load_model : string → string → backbone;
  cuda : backbone → backbone;
  FeaturePyramidNet : nat → backbone → nat → bool → tensor4 → tensor4 * tensor4;
  UnsupervisedMetrics : string → nat → nat → bool → metrics;
  create_cityscapes_colormap : colormap;
  create_pascal_label_colormap : colormap;
  torch_rand : list nat → generator → tensor4 * generator
}.

(** The fields of the hydra configuration that the module reads. *)
Record TrainConfig : Type := {
  continuous : bool;
  dim : nat;
  granularity : nat;
  feature_samples : nat;
  dataset_name : string;
  extra_clusters : nat
}.

Record DictConfig : Type := {
  output_root : string;
  use_cuda : bool;
  train : TrainConfig
}.

Record batch : Type := { batch_img : tensor4; batch_label : labelmap }.

Module LitRecalibrator.
Section WithCollaborators.
Context {collab : Collaborators}.

(** Values held by the attributes of a [LitRecalibrator]. *)
Inductive pyval : Type :=
  | VCfg (c : DictConfig)
  | VInt (n : nat)
  | VBool (b : bool)
  | VNet (f : tensor4 → tensor4 * tensor4)
  | VCrf (m : CRFModule.t)
  | VMetrics (m : metrics)
  | VCmap (c : colormap).

(** The instance: its attributes by name. *)
Abbreviation object := (gmap string pyval).

Definition getattr (self : object) (name : string) : result pyval :=
  match self !! name with
  | Some v => Ok v
  | None => Raise (AttributeError name)
  end.

Definition as_cfg (v : pyval) : result DictConfig :=
  match v with VCfg c => Ok c | _ => Raise (AttributeError "train") end.
Definition as_int (v : pyval) : result nat :=
  match v with VInt n => Ok n | _ => Raise (TypeError "unsupported operand") end.
Definition as_net (v : pyval) : result (tensor4 → tensor4 * tensor4) :=
  match v with VNet f => Ok f | _ => Raise (TypeError "object is not callable") end.
Definition as_crf (v : pyval) : result CRFModule.t :=
  match v with VCrf m => Ok m | _ => Raise (TypeError "object is not callable") end.

(** [LitRecalibrator.__init__].  The assignments of [self.dino] and
    [self.crf] are commented out in the source and so are absent here. *)
Definition init (n_classes : nat) (cfg : DictConfig) : object :=
  let self : object := ∅ in
  let self := <["cfg" := VCfg cfg]> self in
  let self := <["n_classes" := VInt n_classes]> self in
  let dim := if negb (continuous (train cfg)) then n_classes
             else dim (train cfg) in
  let data_dir := output_root cfg +:+ "/data" in
  let self :=
    if use_cuda cfg
    then <["moco" := VNet (FeaturePyramidNet (granularity (train cfg))
                             (cuda (load_model "mocov2" data_dir))
                             dim (continuous (train cfg)))]> self
    else <["moco" := VNet (FeaturePyramidNet (granularity (train cfg))
                             (load_model "mocov2" data_dir)
                             dim (continuous (train cfg)))]> self in
  let self := <["cm_metrics" :=
                  VMetrics (UnsupervisedMetrics "confusion_matrix/" n_classes 0 false)]> self in
  let self := <["automatic_optimization" := VBool false]> self in
  if String.prefix "cityscapes" (dataset_name (train cfg))
  then <["label_cmap" := VCmap create_cityscapes_colormap]> self
  else <["label_cmap" := VCmap create_pascal_label_colormap]> self.

(** [LitRecalibrator.get_crf_fd] *)
Definition get_crf_fd (self : object) (img coords1 coords2 : tensor4)
  : result tensor :=
  let n := length img in
  cfg ← getattr self "cfg" ≫= as_cfg;
  let s := feature_samples (train cfg) in
  img_samples_1 ← reshape_vectors n 3 (flatten4 (sample img coords1));
  img_samples_2 ← reshape_vectors n 3 (flatten4 (sample img coords2));
  c1 ← reshape_vectors n 2 (flatten4 coords1);
  c2 ← reshape_vectors n 2 (flatten4 coords2);
  coord_diff ← t_reshape [n; s; s; s; s]
                  (concat (zip_with pairwise_sq_dist c1 c2));
  img_diff ← t_reshape [n; s; s; s; s]
                (concat (zip_with pairwise_sq_dist img_samples_1 img_samples_2));
  crf ← getattr self "crf" ≫= as_crf;
  CRFModule.forward crf coord_diff img_diff.

(** [LitRecalibrator.get_net_fd] *)
Definition get_net_fd (self : object) (feats1 feats2 : tensor4)
    (label1 label2 : labelmap) (coords1 coords2 : tensor4)
  : result (tensor * tensor * list (list (list nat)) * list (list (list nat))) :=
  let feat_samples1 := sample feats1 coords1 in
  let feat_samples2 := sample feats2 coords2 in
  n_classes ← getattr self "n_classes" ≫= as_int;
  hot1 ← one_hot (map3 Z.succ label1) (n_classes + 1);
  let label_samples1 := sample hot1 coords1 in
  n_classes ← getattr self "n_classes" ≫= as_int;
  hot2 ← one_hot (map3 Z.succ label2) (n_classes + 1);
  let label_samples2 := sample hot2 coords2 in
  fd ← tensor_correlation (norm feat_samples1) (norm feat_samples2);
  ld ← tensor_correlation label_samples1 label_samples2;
  l1 ← argmax1 label_samples1;
  l2 ← argmax1 label_samples2;
  Ok (ld, fd, l1, l2).

(** [torch.rand(shape) * 2 - 1] *)
Definition rand_coords (shp : list nat) : M generator tensor4 :=
  λ g, let '(u, g') := torch_rand shp g in
       (Ok (map4 (λ x, fsub (fmul x (Fin 2)) (Fin 1)) u), g').

(** [LitRecalibrator.validation_step]; the returned dict is the list of its
    items in insertion order. *)
Definition validation_step (self : object) (b : batch) (batch_idx : nat)
  : M generator (list (string * tensor)) :=
  let img := batch_img b in
  let label := batch_label b in
  dino ← lift (getattr self "dino" ≫= as_net);
  let '(dino_feats, dino_code) := dino img in
  moco ← lift (getattr self "moco" ≫= as_net);
  let '(moco_feats, moco_code) := moco img in
  cfg ← lift (getattr self "cfg" ≫= as_cfg);
  let coord_shape := [length img; feature_samples (train cfg);
                      feature_samples (train cfg); 2%nat] in
  coords1 ← rand_coords coord_shape;
  coords2 ← rand_coords coord_shape;
  crf_fd ← lift (get_crf_fd self img coords1 coords2);
  '(_, stego_fd, _, _) ← lift (get_net_fd self dino_code dino_code label label coords1 coords2);
  '(_, dino_fd, _, _) ← lift (get_net_fd self dino_feats dino_feats label label coords1 coords2);
  '(ld, moco_fd, _, _) ← lift (get_net_fd self moco_feats moco_feats label label coords1 coords2);
  mret [("dino_fd", dino_fd); ("stego_fd", stego_fd); ("moco_fd", moco_fd);
        ("crf_fd", crf_fd); ("ld", ld)].

End WithCollaborators.

Abbreviation object := (gmap string pyval).

End LitRecalibrator.

(** ** Tensors that are mutated in place

    The tensors accumulated by [validation_epoch_end] are updated with [-=]
    and [/=] and are reached through several names, so they live in a store.
    A [handle] is a tensor object: the storage it refers to, its device and
    its shape.  Every handle here is contiguous, so [reshape(-1)] returns a
    view on the same storage. *)

Inductive device : Type := CPU | CUDA.

Record handle : Type := Handle {
  h_loc : nat;
  h_dev : device;
  h_shape : list nat
}.

(** What the plotting code hands to scikit-learn, matplotlib and seaborn. *)
Inductive event : Type :=
  | PrecisionRecallCurve (targets : list Z) (preds : list fval)
  | AveragePrecisionScore (targets : list Z) (preds : list fval)
  | PltPlot (recalls precisions : list fval) (label : string)
  | Heatmap (cells : list (list fval)) (names : list string).

Record mem : Type := Mem {
  storage : gmap nat (list fval);
  next_loc : nat;
  trace : list event
}.

Definition read (h : handle) : M mem (list fval) :=
  λ σ, match storage σ !! h_loc h with
       | Some d => (Ok d, σ)
       | None => (Raise (RuntimeError "storage has been released"), σ)
       end.

Definition write (h : handle) (d : list fval) : M mem unit :=
  modify (λ σ, {| storage := <[h_loc h := d]> (storage σ);
                  next_loc := next_loc σ; trace := trace σ |}).

Definition alloc (dv : device) (shp : list nat) (d : list fval) : M mem handle :=
  λ σ, (Ok {| h_loc := next_loc σ; h_dev := dv; h_shape := shp |},
        {| storage := <[next_loc σ := d]> (storage σ);
           next_loc := S (next_loc σ); trace := trace σ |}).

Definition emit (e : event) : M mem unit :=
  modify (λ σ, {| storage := storage σ; next_loc := next_loc σ;
                  trace := trace σ ++ [e] |}).

(** [torch.min] and [torch.max] over all elements. *)
Definition reduce (f : fval → fval → fval) (d : list fval) : result fval :=
  match d with
  | [] => Raise (RuntimeError "cannot reduce a tensor with no elements")
  | x :: l => Ok (foldl f x l)
  end.

(** [t.min()], [t.max()] *)
Definition h_min (h : handle) : M mem fval := d ← read h; lift (reduce fmin d).
Definition h_max (h : handle) : M mem fval := d ← read h; lift (reduce fmax d).

(** [t -= s], [t /= s] *)
Definition h_isub (h : handle) (s : fval) : M mem unit :=
  d ← read h; write h ((λ x, fsub x s) <$> d).
Definition h_idiv (h : handle) (s : fval) : M mem unit :=
  d ← read h; write h ((λ x, fdiv x s) <$> d).

(** [t.reshape(-1)] *)
Definition h_flatten (h : handle) : M mem handle :=
  mret {| h_loc := h_loc h; h_dev := h_dev h; h_shape := [numel (h_shape h)] |}.

(** [t.cpu()]: the tensor itself when it is on the CPU, a copy otherwise. *)
Definition h_cpu (h : handle) : M mem handle :=
  match h_dev h with
  | CPU => mret h
  | CUDA => d ← read h; alloc CPU (h_shape h) d
  end.

(** The cast of one element to [torch.int64]: truncation toward zero; a
    value that is not finite or whose truncation does not fit 64 bits gives
    the smallest integer, as on x86-64. *)
Definition to_int64 (x : fval) : Z :=
  match x with
  | Fin r =>
      if decide (- 2 ^ 63 ≤ Rtrunc r < 2 ^ 63)%Z then Rtrunc r else (- 2 ^ 63)%Z
  | _ => (- 2 ^ 63)%Z
  end.

(** Python's [int(x)] of a float. *)
Definition py_int (x : fval) : result Z :=
  match x with
  | Fin r => Ok (Rtrunc r)
  | NaN => Raise ValueError
  | PInf | NInf => Raise OverflowError
  end.

(** The functions imported from scikit-learn, and [get_class_labels]. *)
Class Sklearn : Type := {
  precision_recall_curve :
    list Z → list fval → result (list fval * list fval * list fval);
  average_precision_score : list Z → list fval → result fval;
  get_class_labels : string → list string
}.

(** What min-max normalization leaves in a tensor with elements [d]. *)
Definition min_max (d : list fval) : result (list fval) :=
  lo ← reduce fmin d;
  let d1 := (λ x, fsub x lo) <$> d in
  hi ← reduce fmax d1;
  Ok ((λ x, fdiv x hi) <$> d1).

(** [prep_fd] *)
Definition prep_fd (fd : handle) : M mem handle :=
  lo ← h_min fd;
  h_isub fd lo;;
  hi ← h_max fd;
  h_idiv fd hi;;
  h_flatten fd.

(** ** The normalization in single precision

    The correlation tensors are [torch.float32].  [Binary32] is the
    arithmetic of that type: IEEE 754 binary32 with rounding to nearest, ties
    to even, overflow to infinity and gradual underflow, as the Standard
    Library's [SpecFloat] defines it (precision 24, exponent bound 128). *)

Module Binary32.

Abbreviation f32 := SpecFloat.spec_float.

Definition prec : Z := 24.
Definition emax : Z := 128.

(** The value of type float32 nearest to [m * 2 ^ e]. *)
Definition of_scaled (m e : Z) : f32 := SpecFloat.binary_normalize prec emax m e false.

Definition is_nan (x : f32) : bool :=
  match x with SpecFloat.S754_nan => true | _ => false end.

Definition fsub : f32 → f32 → f32 := SpecFloat.SFsub prec emax.
Definition fmul : f32 → f32 → f32 := SpecFloat.SFmul prec emax.
Definition fdiv : f32 → f32 → f32 := SpecFloat.SFdiv prec emax.

(** [torch.min] and [torch.max] of two values: NaN wins. *)
Definition fmin (x y : f32) : f32 :=
  if is_nan x || is_nan y then SpecFloat.S754_nan
  else if SpecFloat.SFltb y x then y else x.
Definition fmax (x y : f32) : f32 :=
  if is_nan x || is_nan y then SpecFloat.S754_nan
  else if SpecFloat.SFltb x y then y else x.

Definition reduce (f : f32 → f32 → f32) (d : list f32) : result f32 :=
  match d with
  | [] => Raise (RuntimeError "cannot reduce a tensor with no elements")
  | x :: l => Ok (foldl f x l)
  end.

(** [t -= t.min(); t /= t.max()] on the elements of a float32 tensor. *)
Definition min_max (d : list f32) : result (list f32) :=
  lo ← reduce fmin d;
  let d1 := (λ x, fsub x lo) <$> d in
  hi ← reduce fmax d1;
  Ok ((λ x, fdiv x hi) <$> d1).

End Binary32.

Section Aggregator.
Context {sk : Sklearn}.

(** [plot_pr], the local function of [validation_epoch_end] *)
Definition plot_pr (preds targets : handle) (name : string) : M mem unit :=
  preds ← h_cpu preds ≫= h_flatten;
  lo ← h_min preds;
  h_isub preds lo;;
  hi ← h_max preds;
  h_idiv preds hi;;
  t ← read targets;
  let targets := to_int64 <$> t in
  p ← read preds;
  emit (PrecisionRecallCurve targets p);;
  '(precisions, recalls, _) ← lift (precision_recall_curve targets p);
  emit (AveragePrecisionScore targets p);;
  average_precision ← lift (average_precision_score targets p);
  percent ← lift (py_int (fmul average_precision (Fin 100)));
  emit (PltPlot recalls precisions ("AP=" +:+ pretty percent +:+ "% " +:+ name)).

(** The matrix [plot_cm] draws: the histogram as floats, every row divided
    elementwise by the column sums clamped below at one. *)
Definition col_sums (hist : list (list fval)) : list fval :=
  foldr (zip_with fadd) (replicate (length (default [] (head hist))) (Fin 0)) hist.

Definition clamp_min (l : list fval) (lo : fval) : list fval :=
  (λ x, fmax x lo) <$> l.

Definition cm_divisors (histogram : list (list nat)) : list fval :=
  clamp_min (col_sums (fmap (M:=list) (fmap (M:=list) (λ c, Fin (INR c))) histogram)) (Fin 1).

Definition cm_normalized (histogram : list (list nat)) : list (list fval) :=
  let hist := fmap (M:=list) (fmap (M:=list) (λ c, Fin (INR c))) histogram in
  (λ row, zip_with fdiv row (cm_divisors histogram)) <$> hist.

Fixpoint transpose (w : nat) (rows : list (list fval)) : list (list fval) :=
  match rows with
  | [] => replicate w []
  | r :: rows' => zip_with cons r (transpose w rows')
  end.

(** [plot_cm]; tick colours and grid lines are presentation only and are
    left out. *)
Definition plot_cm (histogram : list (list nat)) (cfg : DictConfig) : M mem unit :=
  let hist := cm_normalized histogram in
  let names := get_class_labels (dataset_name (train cfg)) in
  let names := if decide (extra_clusters (train cfg) = 0)%nat then names
               else names ++ ["Extra"] in
  emit (Heatmap (transpose (length (default [] (head hist))) hist) names).

Definition dict_get {V} (d : list (string * V)) (k : string) : result V :=
  match list_find (λ kv, kv.1 = k) d with
  | Some (_, (_, v)) => Ok v
  | None => Raise (KeyError k)
  end.

(** [torch.cat(ts, dim=0)]: a fresh tensor. *)
Definition cat (dv : device) (ts : list tensor) : M mem handle :=
  match ts with
  | [] => lift (Raise (RuntimeError "expected a non-empty list of tensors"))
  | t0 :: _ =>
      if decide (Forall (λ t, tail (shape t) = tail (shape t0) ∧ shape t ≠ []) ts)
      then alloc dv (sum_list ((λ t, default 0%nat (head (shape t))) <$> ts)
                       :: tail (shape t0))
                 (concat (data <$> ts))
      else lift (Raise (RuntimeError "sizes of tensors must match except in dimension 0"))
  end.

(** The loop that concatenates the per-step outputs into [all_outputs]. *)
Definition accumulate (dv : device) (outputs : list (list (string * tensor)))
  : M mem (list (string * handle)) :=
  match outputs with
  | [] => lift (Raise IndexError)
  | o0 :: _ =>
      mapM (M:=M mem) (λ k, ts ← lift (mapM (M:=result) (λ o, dict_get o k) outputs);
                  t ← cat dv ts;
                  mret (k, t)) (o0.*1)
  end.

(** The precision-recall part of the plotting branch. *)
Definition plot_curves (all_outputs : list (string * handle)) : M mem unit :=
  ld ← lift (dict_get all_outputs "ld");
  s ← lift (dict_get all_outputs "stego_fd");
  p ← prep_fd s; plot_pr p ld "STEGO (Ours)";;
  d ← lift (dict_get all_outputs "dino_fd");
  p ← prep_fd d; plot_pr p ld "DINO";;
  m ← lift (dict_get all_outputs "moco_fd");
  p ← prep_fd m; plot_pr p ld "MoCoV2";;
  c ← lift (dict_get all_outputs "crf_fd");
  p ← prep_fd c; plot_pr p ld "CRF".

(** [LitRecalibrator.validation_epoch_end], given the histogram held by
    [self.cm_metrics], the device of the step outputs and whether this
    process is the one that plots. *)
Definition validation_epoch_end (cfg : DictConfig) (histogram : list (list nat))
    (dv : device) (is_global_zero : bool)
    (outputs : list (list (string * tensor))) : M mem unit :=
  all_outputs ← accumulate dv outputs;
  if is_global_zero
  then plot_cm histogram cfg;; plot_curves all_outputs
  else mret tt.

End Aggregator.

(** ** [create-dataset.py]

    The script reads three things from its environment: the files matched by
    [glob], the time zone of the host (a naive [datetime] is read as local
    time by [timestamp()]) and whether the subset directory already exists.
    What it does is the sequence of file-system calls it issues. *)

Module CreateDataset.

(** [random.Random(seed).shuffle] and [hashlib.sha256(...).hexdigest()]. *)
Class PyStdlib : Type := {
  shuffle : Z → list string → list string;
  sha256_hexdigest : string → string
}.

Inductive fs_call : Type :=
  | Rmtree (path : string)
  | Makedirs (path : string)
  | Link (src dst : string).

Record run_env : Type := {
  glob : list string;
  subset_exists : bool
}.

Definition dataset_name : string := "true_color".
Definition dataset_size : Z := 30000.
Definition train_percent : Z := 50.
Definition val_percent : Z := 25.
Definition test_percent : Z := 25.

(** [datetime(2022, 12, 18, 18).timestamp()] on a host whose local time is
    [utc_offset] seconds ahead of UTC. *)
Definition date_seed_timestamp (utc_offset : Z) : Z := (1671386400 - utc_offset)%Z.

(** [sorted] on strings. *)
Definition sorted (l : list string) : list string := merge_sort String.le l.

Definition subset_path : string :=
  "/datadrive/" +:+ dataset_name +:+ "-" +:+ pretty dataset_size
    +:+ "-" +:+ pretty train_percent +:+ "-" +:+ pretty val_percent
    +:+ "-" +:+ pretty test_percent +:+ "-2022-12-18-18/imgs".
Definition train_path : string := subset_path +:+ "/train".
Definition val_path : string := subset_path +:+ "/val".
Definition test_path : string := subset_path +:+ "/test".

(** The slice bounds; the float products of the source are exact for these
    constants. *)
Definition train_start : Z := 0.
Definition train_end : Z := (train_percent * dataset_size / 100)%Z.
Definition val_start : Z := train_end.
Definition val_end : Z := (val_percent * dataset_size / 100 + val_start)%Z.
Definition test_start : Z := val_end.
Definition test_end : Z := (test_percent * dataset_size / 100 + test_start)%Z.

(** [l[a:b]] for non-negative bounds. *)
Definition slice {A} (l : list A) (a b : Z) : list A :=
  take (Z.to_nat b - Z.to_nat a) (drop (Z.to_nat a) l).

(** [Path(p).name]: what follows the last slash. *)
Fixpoint path_name_go (acc : string) (p : string) : string :=
  match p with
  | EmptyString => String.rev acc
  | String c p' =>
      if Ascii.eqb c "/"%char then path_name_go "" p'
      else path_name_go (String c acc) p'
  end.
Definition path_name (p : string) : string := path_name_go "" p.

(** [name.rfind('.')], if any. *)
Fixpoint rfind_dot (i : nat) (found : option nat) (s : string) : option nat :=
  match s with
  | EmptyString => found
  | String c s' =>
      rfind_dot (S i) (if Ascii.eqb c "."%char then Some i else found) s'
  end.

(** [Path(p).stem] *)
Definition path_stem (p : string) : string :=
  let name := path_name p in
  match rfind_dot 0 None name with
  | Some i =>
      if decide (0 < i < String.length name - 1)%nat
      then String.substring 0 i name
      else name
  | None => name
  end.

Section Script.
Context {py : PyStdlib}.

Definition link_call (dir : string) (file : string) : fs_call :=
  let hash := sha256_hexdigest (path_stem file) in
  let file_name := hash +:+ "-" +:+ path_name file in
  Link file (dir +:+ "/" +:+ file_name).

(** The shuffled listing. *)
Definition dataset_files (utc_offset : Z) (env : run_env) : list string :=
  shuffle (date_seed_timestamp utc_offset) (sorted (glob env)).

Definition train_files (utc_offset : Z) (env : run_env) : list string :=
  slice (dataset_files utc_offset env) train_start train_end.
Definition val_files (utc_offset : Z) (env : run_env) : list string :=
  slice (dataset_files utc_offset env) val_start val_end.
Definition test_files (utc_offset : Z) (env : run_env) : list string :=
  slice (dataset_files utc_offset env) test_start test_end.

(** The calls of one run, in order: the directories are set up, then every
    file of the three subsets is linked. *)
Definition setup (env : run_env) : list fs_call :=
  (if subset_exists env then [Rmtree subset_path] else [])
  ++ [Makedirs train_path; Makedirs val_path; Makedirs test_path].

Definition links (utc_offset : Z) (env : run_env) : list fs_call :=
  (link_call train_path <$> train_files utc_offset env)
  ++ (link_call val_path <$> val_files utc_offset env)
  ++ (link_call test_path <$> test_files utc_offset env).

Definition script (utc_offset : Z) (env : run_env) : list fs_call :=
  setup env ++ links utc_offset env.

End Script.
End CreateDataset.

(** ** Vocabulary of the statements *)

Section Vocabulary.
Local Open Scope R_scope.

Definition sum_sq (xs : list R) : R := foldr (λ x acc, x * x + acc) 0 xs.

(** The values of a list are not all equal. *)
Definition varies (xs : list R) : Prop := ∃ a b, a ∈ xs ∧ b ∈ xs ∧ a ≠ b.

(** Min-max normalization as arithmetic on reals: subtract the minimum,
    divide by the range. *)
Definition unit_scale (xs : list R) : list R :=
  match xs with
  | [] => []
  | x :: l => (λ y, (y - foldl Rmin x l) / (foldl Rmax x l - foldl Rmin x l)) <$> xs
  end.

(** The largest finite number of [torch.float32] and its smallest positive
    normal number. *)
Definition float32_max : R := IZR ((2 ^ 24 - 1) * 2 ^ 104).

(** No difference of two values of the list overflows in single precision. *)
Definition spread_bounded (xs : list R) : Prop :=
  ∀ a b, a ∈ xs → b ∈ xs → b - a <= float32_max.


(** The names of the entries a step returned. *)
Definition keys_of {S} (r : result (list (string * tensor)) * S) : result (list string) :=
  match r.1 with
  | Ok out => Ok (out.*1)
  | Raise e => Raise e
  end.

(** One round of the accumulation loop: the tensors of all steps under [k],
    concatenated. *)
Definition gather (dv : device) (outputs : list (list (string * tensor)))
    (k : string) : M mem (string * handle) :=
  ts ← lift (mapM (M:=result) (λ o : list (string * tensor), dict_get o k) outputs);
  t ← cat dv ts;
  mret (k, t).

(** The store with the elements at [l] replaced by [d]. *)
Definition set_data (σ : mem) (l : nat) (d : list fval) : mem :=
  {| storage := <[l := d]> (storage σ); next_loc := next_loc σ; trace := trace σ |}.

(** The storage behind [h] holds the min-max normalization of [xs]. *)
Definition holds_normalized (σ : mem) (h : handle) (xs : list R) : Prop :=
  ∃ d, min_max (Fin <$> xs) = Ok d ∧ storage σ !! h_loc h = Some d.

(** The part of [plot_pr] that follows the normalization: the two
    scikit-learn calls and the plotted curve. *)
Definition pr_report {sk : Sklearn} (targets : list Z) (p : list fval)
    (name : string) : M mem unit :=
  emit (PrecisionRecallCurve targets p);;
  '(precisions, recalls, _) ← lift (precision_recall_curve targets p);
  emit (AveragePrecisionScore targets p);;
  average_precision ← lift (average_precision_score targets p);
  percent ← lift (py_int (fmul average_precision (Fin 100)));
  emit (PltPlot recalls precisions ("AP=" +:+ pretty percent +:+ "% " +:+ name)).

End Vocabulary.

(** ** Stubs

    Stand-ins for the collaborators, for running the code on synthetic data:
    [sample] returns the map it is given, the featurizer returns its input
    as both features and code, [torch.rand] returns zeros, the scikit-learn
    functions return fixed values, [shuffle] reverses and the digest of a
    string is the string. *)
Module Stub.

Definition rand (shp : list nat) (g : nat) : tensor4 * nat :=
  match shp with
  | [n; h; w; c] => (replicate n (replicate h (replicate w (replicate c (Fin 0)))), S g)
  | _ => ([], S g)
  end.

#[local] Instance collaborators : Collaborators := {|
  backbone := unit;
  metrics := unit;
  colormap := unit;
  generator := nat;
  sample := λ t _, t;
  load_model := λ _ _, tt;
  cuda := λ b, b;
  FeaturePyramidNet := λ _ _ _ _ img, (img, img);
  UnsupervisedMetrics := λ _ _ _ _, tt;
  create_cityscapes_colormap := tt;
  create_pascal_label_colormap := tt;
  torch_rand := rand
|}.

Definition cfg : DictConfig :=
  {| output_root := "out"; use_cuda := false;
     train := {| continuous := false; dim := 1; granularity := 1;
                 feature_samples := 1; dataset_name := "cityscapes";
                 extra_clusters := 0 |} |}.

(** One image of one pixel, labelled with class 0. *)
Definition one_pixel : batch :=
  {| batch_img := [[[[Fin 1; Fin 2; Fin 3]]]]; batch_label := [[[0%Z]]] |}.

(** The outputs of one step on one pair of sampled pixels. *)
Definition step_outputs (dino stego moco crf ld : R) : list (string * tensor) :=
  [("dino_fd", Tensor [1; 1; 1; 1; 1] [Fin dino]);
   ("stego_fd", Tensor [1; 1; 1; 1; 1] [Fin stego]);
   ("moco_fd", Tensor [1; 1; 1; 1; 1] [Fin moco]);
   ("crf_fd", Tensor [1; 1; 1; 1; 1] [Fin crf]);
   ("ld", Tensor [1; 1; 1; 1; 1] [Fin ld])].

#[local] Instance sklearn : Sklearn := {|
  precision_recall_curve := λ _ p, Ok (p, p, p);
  average_precision_score := λ _ _, Ok (Fin 0.5);
  get_class_labels := λ _, []
|}.

#[local] Instance py_stdlib : CreateDataset.PyStdlib := {|
  CreateDataset.shuffle := λ _ l, reverse l;
  CreateDataset.sha256_hexdigest := λ s, s
|}.

End Stub.

(** ** Vocabulary of the further statements *)

(** The sources and the destinations of the [link] calls among [calls], in
    order. *)
Definition link_sources (calls : list CreateDataset.fs_call) : list string :=
  omap (λ c, match c with CreateDataset.Link src _ => Some src | _ => None end) calls.
Definition link_destinations (calls : list CreateDataset.fs_call) : list string :=
  omap (λ c, match c with CreateDataset.Link _ dst => Some dst | _ => None end) calls.

(** The path a file of a subset is linked under. *)
Definition link_path {py : CreateDataset.PyStdlib} (dir file : string) : string :=
  dir +:+ "/" +:+ CreateDataset.sha256_hexdigest (CreateDataset.path_stem file)
    +:+ "-" +:+ CreateDataset.path_name file.

(** ** [super_perm] *)

(** [torch.randperm(size, dtype=torch.long)]: the draw of one call. *)
Class TorchRandom : Type := {
  randperm : nat → list Z
}.

(** [perm[perm == arange(size)] += 1] moves every fixed point of the draw one
    up; [perm % size] wraps the last position around. *)
Definition super_perm {tr : TorchRandom} (size : nat) : list Z :=
  let perm := randperm size in
  let perm := imap (λ i p, if decide (p = Z.of_nat i) then (p + 1)%Z else p) perm in
  (λ p, p `mod` Z.of_nat size)%Z <$> perm.

(** ** Reductions over dimensions 3 and 4: [prep_fd_coord], [prep_fd_2] *)

(** The positions that a reduction over dimensions 3 and 4 combines with
    position [i] of a row-major tensor of shape [shp]: those that differ from
    [i] in these two indices only. *)
Definition group34 (shp : list nat) (i : nat) : list nat :=
  let inner := numel (drop 5 shp) in
  let n := (nth 3 shp 0 * nth 4 shp 0)%nat in
  let block := (n * inner)%nat in
  (λ p, (i / block * block + p * inner + i mod inner)%nat) <$> seq 0 n.

Definition values_at (d : list fval) (idx : list nat) : list fval :=
  (λ j, default NaN (d !! j)) <$> idx.

Definition fmean (l : list fval) : fval :=
  fdiv (fsum l) (Fin (INR (length l))).

(** The standard deviation with Bessel's correction, torch's default. *)
Definition fstd (l : list fval) : fval :=
  let m := fmean l in
  fsqrt (fdiv (fsum ((λ x, fsquare (fsub x m)) <$> l))
              (Fin (INR (length l - 1)))).

(** The reduction [f] over dimensions 3 and 4 with [keepdim=True], as the
    in-place operations below see it: broadcast back to the shape [shp]. *)
Definition reduce34 (f : list fval → fval) (shp : list nat) (d : list fval)
    : list fval :=
  (λ i, f (values_at d (group34 shp i))) <$> seq 0 (length d).

(** [t.mean([3, 4], keepdim=True)], [t.std([3, 4], keepdim=True)]: a tensor of
    fewer than five dimensions has no dimension 4. *)
Definition h_reduce34 (f : list fval → fval) (h : handle) : M mem (list fval) :=
  d ← read h;
  if decide (5 ≤ length (h_shape h))%nat
  then mret (reduce34 f (h_shape h) d)
  else lift (Raise IndexError).

(** [t -= v], [t /= v] for a tensor [v] broadcast to the shape of [t] *)
Definition h_isub_t (h : handle) (v : list fval) : M mem unit :=
  d ← read h; write h (zip_with fsub d v).
Definition h_idiv_t (h : handle) (v : list fval) : M mem unit :=
  d ← read h; write h (zip_with fdiv d v).

(** [prep_fd_coord] *)
Definition prep_fd_coord (fd : handle) : M mem handle :=
  m ← h_reduce34 fmean fd;
  h_isub_t fd m;;
  s ← h_reduce34 fstd fd;
  h_idiv_t fd s;;
  h_flatten fd.

(** [prep_fd_2] *)
Definition prep_fd_2 (fd : handle) : M mem handle :=
  m ← h_reduce34 fmean fd;
  h_isub_t fd m;;
  lo ← h_min fd;
  h_isub fd lo;;
  hi ← h_max fd;
  h_idiv fd hi;;
  mret fd.

(** ** Sample collaborators of the further statements *)

Module Samples.

(** A scorer whose average precision is undefined. *)
#[local] Instance sklearn_nan : Sklearn := {|
  precision_recall_curve := λ _ p, Ok (p, p, p);
  average_precision_score := λ _ _, Ok NaN;
  get_class_labels := λ _, []
|}.

(** A digest of fixed length. *)
#[local] Instance py_digest : CreateDataset.PyStdlib := {|
  CreateDataset.shuffle := λ _ l, reverse l;
  CreateDataset.sha256_hexdigest := λ _, "0f"
|}.

(** A draw with the fixed point 0. *)
#[local] Instance draw : TorchRandom := {|
  randperm := λ _, [0; 2; 1]%Z
|}.

(** A shuffle that depends on its seed: the listing is reversed when the
    seed is an odd number of hours. *)
#[local] Instance py_seeded : CreateDataset.PyStdlib := {|
  CreateDataset.shuffle := λ seed l, if Z.even (seed `div` 3600) then l else reverse l;
  CreateDataset.sha256_hexdigest := λ _, "0f"
|}.

(** A tensor of two slices of one value each. *)
Definition unit_slices : handle :=
  {| h_loc := 0; h_dev := CPU; h_shape := [1; 1; 2; 1; 1]%nat |}.
Definition unit_slices_store (x y : fval) : mem :=
  {| storage := {[0%nat := [x; y]]}; next_loc := 1; trace := [] |}.

End Samples.

(* ===================================================================== *)
(** * Properties *)
(* ===================================================================== *)

(** ** Scalars *)

Section ScalarFacts.
Local Open Scope R_scope.

Lemma fdiv_fin (a b : R) : b ≠ 0 → fdiv (Fin a) (Fin b) = Fin (a / b).
Proof. intros Hb. simpl. destruct (Req_dec_T b 0); [contradiction | reflexivity]. Qed.

Lemma fdiv_zero_zero : fdiv (Fin 0) (Fin 0) = NaN.
Proof.
  simpl. destruct (Req_dec_T 0 0) as [_ | H]; [| contradiction].
  unfold signed_inf. destruct (total_order_T 0 0) as [[H | _] | H]; try lra.
  reflexivity.
Qed.

Lemma two_exp_neq_0 (a : R) : 2 * exp a ≠ 0.
Proof. pose proof (exp_pos a). lra. Qed.

End ScalarFacts.

(** ** The pairwise potential *)

Section CRFFacts.
Import CRFModule.
Local Open Scope R_scope.

Lemma zip_with_replicate {A B C} (f : A → B → C) (n : nat) (a : A) (b : B) :
  zip_with f (replicate n a) (replicate n b) = replicate n (f a b).
Proof. induction n as [| n IH]; simpl; [reflexivity | by rewrite IH]. Qed.

(** [forward] computes [potential] on every pair of corresponding elements. *)
Lemma forward_data (self : CRFModule.t) (cd id : tensor) :
  shape cd = shape id →
  forward self cd id =
    Ok {| shape := shape cd;
          data := zip_with (potential self) (data cd) (data id) |}.
Proof.
  intros Hs. unfold forward, t_sub, t_add, t_zip. simpl.
  rewrite decide_True by exact Hs. simpl.
  rewrite decide_True by reflexivity. simpl.
  unfold t_sub_s, t_map. simpl. do 2 f_equal.
  generalize (data id). clear Hs.
  induction (data cd) as [| c l IH]; intros [| i l']; simpl; try reflexivity.
  by rewrite IH.
Qed.

(** On finite arguments [potential] is the formula of the specification. *)
Lemma potential_finite (w1 w2 sh a b g c i : R) :
  potential (Build (Fin w1) (Fin w2) (Fin sh) (Fin a) (Fin b) (Fin g))
            (Fin c) (Fin i)
  = Fin (potential_spec w1 w2 sh a b g c i).
Proof.
  unfold potential, potential_spec. cbn [CRFModule.w1 CRFModule.w2
    CRFModule.shift CRFModule.alpha CRFModule.beta CRFModule.gamma
    fexp fabs fneg].
  change (fmul (Fin 2) (Fin (exp a))) with (Fin (2 * exp a)).
  change (fmul (Fin 2) (Fin (exp b))) with (Fin (2 * exp b)).
  change (fmul (Fin 2) (Fin (exp g))) with (Fin (2 * exp g)).
  rewrite !fdiv_fin by apply two_exp_neq_0.
  reflexivity.
Qed.



Lemma potential_init_zero : potential init (Fin 0) (Fin 0) = Fin 13.3.
Proof.
  unfold init. rewrite potential_finite. f_equal. unfold potential_spec.
  replace (- 0 / (2 * exp 0.5) - 0 / (2 * exp 0.15)) with 0
    by (field; split; apply exp_neq_0 || (pose proof (exp_pos 0.15); pose proof (exp_pos 0.5); lra)).
  replace (- 0 / (2 * exp 0.05)) with 0
    by (field; pose proof (exp_pos 0.05); lra).
  rewrite exp_0, !Rabs_pos_eq by lra. lra.
Qed.

(** C3: with the parameters of a freshly constructed module and inputs that
    are zero everywhere, every element of the output is 13.3, whatever the
    shape. *)
Theorem forward_default_zeros (shp : list nat) :
  forward init (zeros shp) (zeros shp) = Ok (full shp (Fin 13.3)).
Proof.
  rewrite forward_data by reflexivity. unfold zeros, full. simpl.
  by rewrite zip_with_replicate, potential_init_zero.
Qed.

End CRFFacts.

(** ** The per-step evaluation *)

Section StepFacts.
Import LitRecalibrator.
Context {collab : Collaborators}.

Lemma init_no_dino (n_classes : nat) (cfg : DictConfig) :
  init n_classes cfg !! "dino" = None.
Proof.
  unfold init. destruct (use_cuda cfg), (String.prefix _ _);
    by rewrite !lookup_insert_ne, lookup_empty.
Qed.

Lemma init_no_crf (n_classes : nat) (cfg : DictConfig) :
  init n_classes cfg !! "crf" = None.
Proof.
  unfold init. destruct (use_cuda cfg), (String.prefix _ _);
    by rewrite !lookup_insert_ne, lookup_empty.
Qed.

(** C1 (as the code behaves): on an instance built by [__init__],
    [validation_step] raises AttributeError for [self.dino] on every batch and
    returns no mapping; the random generator is left untouched. *)
Theorem validation_step_raises (n_classes : nat) (cfg : DictConfig)
    (b : batch) (batch_idx : nat) (g : generator) :
  validation_step (init n_classes cfg) b batch_idx g
  = (Raise (AttributeError "dino"), g).
Proof.
  unfold validation_step, getattr. rewrite init_no_dino. reflexivity.
Qed.

(** When it does return, the mapping has exactly the five named entries. *)
Lemma validation_step_keys (self : object) (b : batch) (batch_idx : nat)
    (g g' : generator) (out : list (string * tensor)) :
  validation_step self b batch_idx g = (Ok out, g') →
  out.*1 = ["dino_fd"; "stego_fd"; "moco_fd"; "crf_fd"; "ld"].
Proof.
  unfold validation_step, mbind, M_bind, lift, mret, M_ret.
  repeat match goal with
  | |- context [match ?r with Ok _ => _ | Raise _ => _ end] => destruct r; try discriminate
  | |- context [let '(_, _) := ?p in _] => destruct p
  | |- context [match ?p with (_, _) => _ end] => destruct p
  end.
  all: try discriminate.
  intros [= <- _]. reflexivity.
Qed.

(** With the two attributes assigned as the commented-out lines of
    [__init__] would, the step runs through on a one-pixel image and returns
    the five entries. *)
Example validation_step_with_dino_and_crf :
  let self : gmap string (pyval (collab:=Stub.collaborators)) :=
    <["crf" := VCrf CRFModule.init]>
      (<["dino" := VNet (λ img, (img, img))]> (init 1 Stub.cfg)) in
  keys_of (validation_step (collab:=Stub.collaborators) self Stub.one_pixel 0 0%nat)
  = Ok ["dino_fd"; "stego_fd"; "moco_fd"; "crf_fd"; "ld"].
Proof. reflexivity. Qed.

End StepFacts.

(** ** Normalization and correlation of sampled vectors *)

Section CorrelationFacts.
Local Open Scope R_scope.

Lemma sum_sq_nonneg (xs : list R) : 0 <= sum_sq xs.
Proof. induction xs as [| x xs IH]; simpl; [lra | nra]. Qed.

Lemma fadd_fin_inv (x y : fval) (s : R) :
  fadd x y = Fin s → ∃ a b, x = Fin a ∧ y = Fin b ∧ s = a + b.
Proof. destruct x, y; simpl; try discriminate. intros [= <-]. eauto. Qed.

Lemma fsquare_fin_inv (x : fval) (s : R) :
  fmul x x = Fin s → ∃ a, x = Fin a ∧ s = a * a.
Proof. destruct x; simpl; try discriminate. intros [= <-]. eauto. Qed.

Lemma dot_self_fin_inv (v : list fval) (s : R) :
  dot v v = Fin s → ∃ xs, v = Fin <$> xs ∧ s = sum_sq xs.
Proof.
  revert s. induction v as [| x v IH]; intros s.
  - intros [= <-]. by exists [].
  - unfold dot, fsum. simpl. intros H.
    apply fadd_fin_inv in H as (a & b & Ha & Hb & ->).
    apply fsquare_fin_inv in Ha as (r & -> & ->).
    destruct (IH b Hb) as (xs & -> & ->).
    by exists (r :: xs).
Qed.

Lemma dot_self_fin (xs : list R) : dot (Fin <$> xs) (Fin <$> xs) = Fin (sum_sq xs).
Proof.
  induction xs as [| x xs IH]; [reflexivity |].
  change (dot (Fin <$> x :: xs) (Fin <$> x :: xs))
    with (fadd (fmul (Fin x) (Fin x)) (dot (Fin <$> xs) (Fin <$> xs))).
  by rewrite IH.
Qed.

Lemma sum_sq_scale (xs : list R) (r : R) :
  r ≠ 0 → sum_sq ((λ x, x / r) <$> xs) = sum_sq xs / (r * r).
Proof.
  intros Hr. induction xs as [| x xs IH].
  - simpl. field. exact Hr.
  - change (sum_sq ((λ x, x / r) <$> x :: xs))
      with (x / r * (x / r) + sum_sq ((λ x, x / r) <$> xs)).
    rewrite IH. simpl. field. exact Hr.
Qed.

(** A vector with a finite, non-zero L2 norm is normalized to unit L2 norm. *)
Lemma normalize_unit (v : list fval) (r : R) :
  l2norm v = Fin r → r ≠ 0 → l2norm (normalize v) = Fin 1.
Proof.
  unfold l2norm at 1. intros Hn Hr.
  destruct (dot v v) as [s | | |] eqn:Hd; simpl in Hn; try discriminate.
  destruct (Rlt_dec s 0) as [| Hs]; [discriminate |].
  injection Hn as <-.
  apply dot_self_fin_inv in Hd as (xs & -> & ->).
  assert (Hl : l2norm (Fin <$> xs) = Fin (sqrt (sum_sq xs))).
  { unfold l2norm. rewrite dot_self_fin. simpl.
    destruct (Rlt_dec _ 0); [contradiction | reflexivity]. }
  unfold normalize. rewrite Hl.
  assert (Hm : (λ x, fdiv x (Fin (sqrt (sum_sq xs)))) <$> (Fin <$> xs)
             = Fin <$> ((λ x, x / sqrt (sum_sq xs)) <$> xs)).
  { rewrite <- !list_fmap_compose. apply list_fmap_ext. intros _ x _. simpl.
    destruct (Req_dec_T _ 0); [contradiction | reflexivity]. }
  rewrite Hm. unfold l2norm. rewrite dot_self_fin, sum_sq_scale by exact Hr.
  rewrite sqrt_sqrt by apply sum_sq_nonneg.
  assert (Hpos : sum_sq xs ≠ 0).
  { intros H0. apply Hr. rewrite H0. apply sqrt_0. }
  replace (sum_sq xs / sum_sq xs) with 1 by (field; exact Hpos).
  simpl. destruct (Rlt_dec 1 0); [lra |]. by rewrite sqrt_1.
Qed.

Lemma vectors_norm (A : list (list (list fval))) :
  vectors (fmap (M:=list) (fmap (M:=list) normalize) A) = normalize <$> vectors A.
Proof.
  unfold vectors. induction A as [| row A IH]; [reflexivity |].
  rewrite fmap_cons. simpl concat. by rewrite fmap_app, IH.
Qed.

Lemma correlate_fmap (f : list fval → list fval) (A B : list (list fval)) :
  correlate (f <$> A) (f <$> B) = (a ← A; b ← B; [dot (f a) (f b)]).
Proof.
  unfold correlate. induction A as [| a A IH]; [reflexivity |].
  rewrite fmap_cons, !bind_cons, IH. f_equal. clear IH.
  induction B as [| b B IHB]; [reflexivity |].
  by rewrite fmap_cons, !bind_cons, IHB.
Qed.

Lemma tensor_correlation_data (a b : tensor4) (t : tensor) :
  tensor_correlation a b = Ok t →
  data t = concat (zip_with (λ A B, correlate (vectors A) (vectors B)) a b).
Proof.
  unfold tensor_correlation.
  destruct (dims4 a) as [[[n1 h1] w1] c1], (dims4 b) as [[[n2 h2] w2] c2].
  case_decide; [| discriminate]. by intros [= <-].
Qed.

End CorrelationFacts.

Section NetFdFacts.
Import LitRecalibrator.
Context {collab : Collaborators}.

(** C4: in [get_net_fd] the feature correlation [fd] consists of the dot
    products of the per-vector L2-normalized feature samples (each of unit
    norm whenever the sampled vector has a finite non-zero norm), while the
    label correlation [ld] consists of the dot products of the sampled one-hot
    label vectors themselves, not normalized. *)
Theorem get_net_fd_normalizes_features_only (self : object)
    (feats1 feats2 : tensor4) (label1 label2 : labelmap)
    (coords1 coords2 : tensor4)
    (ld fd : tensor) (l1 l2 : list (list (list nat))) :
  get_net_fd self feats1 feats2 label1 label2 coords1 coords2
    = Ok (ld, fd, l1, l2) →
  ∃ (n_classes : nat) (hot1 hot2 : tensor4),
    getattr self "n_classes" = Ok (VInt n_classes)
    ∧ one_hot (map3 Z.succ label1) (n_classes + 1) = Ok hot1
    ∧ one_hot (map3 Z.succ label2) (n_classes + 1) = Ok hot2
    ∧ data fd = concat (zip_with
        (λ A B, a ← vectors A; b ← vectors B; [dot (normalize a) (normalize b)])
        (sample feats1 coords1) (sample feats2 coords2))
    ∧ data ld = concat (zip_with
        (λ A B, a ← vectors A; b ← vectors B; [dot a b])
        (sample hot1 coords1) (sample hot2 coords2))
    ∧ ∀ A a r, A ∈ sample feats1 coords1 ++ sample feats2 coords2 →
        a ∈ vectors A → l2norm a = Fin r → r ≠ 0%R →
        l2norm (normalize a) = Fin 1.
Proof.
  unfold get_net_fd. intros H.
  destruct (getattr self "n_classes") as [v |] eqn:Hg; [| discriminate].
  destruct v as [| n | | | | |]; try discriminate. simpl in H.
  destruct (one_hot (map3 Z.succ label1) (n + 1)) as [hot1 |] eqn:H1;
    [| discriminate]. simpl in H.
  destruct (one_hot (map3 Z.succ label2) (n + 1)) as [hot2 |] eqn:H2;
    [| discriminate]. simpl in H.
  destruct (tensor_correlation (norm _) (norm _)) as [fd' |] eqn:Hfd;
    [| discriminate]. simpl in H.
  destruct (tensor_correlation (sample hot1 _) _) as [ld' |] eqn:Hld;
    [| discriminate]. simpl in H.
  destruct (argmax1 (sample hot1 coords1)); [| discriminate]. simpl in H.
  destruct (argmax1 (sample hot2 coords2)); [| discriminate]. simpl in H.
  injection H as <- <- _ _.
  exists n, hot1, hot2. do 3 (split; [done |]). split; [| split].
  - rewrite (tensor_correlation_data _ _ _ Hfd). unfold norm, map3.
    rewrite zip_with_fmap_l, zip_with_fmap_r. f_equal.
    apply zip_with_ext; [| reflexivity..]. intros A B.
    by rewrite !vectors_norm, correlate_fmap.
  - by rewrite (tensor_correlation_data _ _ _ Hld).
  - intros A v r _ _. apply normalize_unit.
Qed.

End NetFdFacts.

(** ** Min-max normalization of finite data *)

Section MinMaxFacts.
Local Open Scope R_scope.

Lemma foldl_fmin_fin (x : R) (l : list R) :
  foldl fmin (Fin x) (Fin <$> l) = Fin (foldl Rmin x l).
Proof. revert x. induction l as [| y l IH]; intros x; [reflexivity |]. apply IH. Qed.

Lemma foldl_fmax_fin (x : R) (l : list R) :
  foldl fmax (Fin x) (Fin <$> l) = Fin (foldl Rmax x l).
Proof. revert x. induction l as [| y l IH]; intros x; [reflexivity |]. apply IH. Qed.

Lemma foldl_Rmin_le_init (x : R) (l : list R) : foldl Rmin x l <= x.
Proof.
  revert x. induction l as [| y l IH]; intros x; simpl; [lra |].
  etrans; [apply IH | apply Rmin_l].
Qed.

Lemma foldl_Rmax_ge_init (x : R) (l : list R) : x <= foldl Rmax x l.
Proof.
  revert x. induction l as [| y l IH]; intros x; simpl; [lra |].
  etrans; [apply Rmax_l | apply IH].
Qed.

Lemma foldl_Rmin_lower (x : R) (l : list R) (y : R) :
  y ∈ x :: l → foldl Rmin x l <= y.
Proof.
  revert x. induction l as [| z l IH]; intros x Hy.
  - apply list_elem_of_singleton in Hy as ->. simpl. lra.
  - simpl. apply elem_of_cons in Hy as [-> | Hy].
    + etrans; [apply foldl_Rmin_le_init | apply Rmin_l].
    + apply elem_of_cons in Hy as [-> | Hy].
      * etrans; [apply foldl_Rmin_le_init | apply Rmin_r].
      * apply IH. by right.
Qed.

Lemma foldl_Rmax_upper (x : R) (l : list R) (y : R) :
  y ∈ x :: l → y <= foldl Rmax x l.
Proof.
  revert x. induction l as [| z l IH]; intros x Hy.
  - apply list_elem_of_singleton in Hy as ->. simpl. lra.
  - simpl. apply elem_of_cons in Hy as [-> | Hy].
    + etrans; [apply Rmax_l | apply foldl_Rmax_ge_init].
    + apply elem_of_cons in Hy as [-> | Hy].
      * etrans; [apply Rmax_r | apply foldl_Rmax_ge_init].
      * apply IH. by right.
Qed.

Lemma foldl_Rmin_elem (x : R) (l : list R) : foldl Rmin x l ∈ x :: l.
Proof.
  revert x. induction l as [| z l IH]; intros x; [by left |].
  simpl. specialize (IH (Rmin x z)).
  apply elem_of_cons in IH as [-> | IH]; [| by do 2 right].
  unfold Rmin. destruct (Rle_dec x z); [by left | by right; left].
Qed.

Lemma foldl_Rmax_elem (x : R) (l : list R) : foldl Rmax x l ∈ x :: l.
Proof.
  revert x. induction l as [| z l IH]; intros x; [by left |].
  simpl. specialize (IH (Rmax x z)).
  apply elem_of_cons in IH as [-> | IH]; [| by do 2 right].
  unfold Rmax. destruct (Rle_dec x z); [by right; left | by left].
Qed.

Lemma fmap_replicate_const {A B} (f : A → B) (c : B) (l : list A) :
  (∀ y, y ∈ l → f y = c) → f <$> l = replicate (length l) c.
Proof.
  induction l as [| y l IH]; intros H; [reflexivity |].
  rewrite fmap_cons, (H y) by left. simpl. f_equal. apply IH.
  intros z Hz. apply H. by right.
Qed.

Lemma result_bind_ok {A B} (a : A) (k : A → result B) : Ok a ≫= k = k a.
Proof. reflexivity. Qed.

Lemma reduce_fmin_fin (x : R) (l : list R) :
  reduce fmin (Fin <$> x :: l) = Ok (Fin (foldl Rmin x l)).
Proof. rewrite fmap_cons. simpl. by rewrite foldl_fmin_fin. Qed.

Lemma reduce_fmax_fin (x : R) (l : list R) :
  reduce fmax (Fin <$> x :: l) = Ok (Fin (foldl Rmax x l)).
Proof. rewrite fmap_cons. simpl. by rewrite foldl_fmax_fin. Qed.

(** A monotone map commutes with the running minimum and maximum. *)
Lemma foldl_Rmin_fmap (f : R → R) (x : R) (l : list R) :
  (∀ a b, a <= b → f a <= f b) →
  foldl Rmin (f x) (f <$> l) = f (foldl Rmin x l).
Proof.
  intros Hf. revert x. induction l as [| y l IH]; intros x; [reflexivity |].
  simpl. rewrite <- IH. f_equal. unfold Rmin.
  destruct (Rle_dec x y) as [H | H], (Rle_dec (f x) (f y)) as [H' | H'];
    try reflexivity.
  - exfalso. auto.
  - assert (f y <= f x) by (apply Hf; lra). lra.
Qed.

Lemma foldl_Rmax_fmap (f : R → R) (x : R) (l : list R) :
  (∀ a b, a <= b → f a <= f b) →
  foldl Rmax (f x) (f <$> l) = f (foldl Rmax x l).
Proof.
  intros Hf. revert x. induction l as [| y l IH]; intros x; [reflexivity |].
  simpl. rewrite <- IH. f_equal. unfold Rmax.
  destruct (Rle_dec x y) as [H | H], (Rle_dec (f x) (f y)) as [H' | H'];
    try reflexivity.
  - exfalso. auto.
  - assert (f y <= f x) by (apply Hf; lra). lra.
Qed.

Lemma signed_inf_0 : signed_inf 0 = NaN.
Proof. unfold signed_inf. destruct (total_order_T 0 0) as [[H | _] | H]; try lra. reflexivity. Qed.

(** The range of a non-empty list. *)
Lemma range_pos (x : R) (l : list R) (a b : R) :
  a ∈ x :: l → b ∈ x :: l → a ≠ b → 0 < foldl Rmax x l - foldl Rmin x l.
Proof.
  intros Ha Hb Hab.
  pose proof (foldl_Rmin_lower x l a Ha). pose proof (foldl_Rmax_upper x l a Ha).
  pose proof (foldl_Rmin_lower x l b Hb). pose proof (foldl_Rmax_upper x l b Hb).
  destruct (Rtotal_order a b) as [? | [? | ?]]; [lra | contradiction | lra].
Qed.

Lemma range_zero_const (x : R) (l : list R) (y : R) :
  foldl Rmax x l - foldl Rmin x l = 0 → y ∈ x :: l → y = foldl Rmin x l.
Proof.
  intros H0 Hy.
  pose proof (foldl_Rmin_lower x l y Hy). pose proof (foldl_Rmax_upper x l y Hy). lra.
Qed.

(** Min-max normalization of finite data, in closed form. *)
Lemma min_max_fin (x : R) (l : list R) :
  min_max (Fin <$> x :: l) =
    Ok (if Req_dec_T (foldl Rmax x l - foldl Rmin x l) 0
        then replicate (S (length l)) NaN
        else Fin <$> ((λ y, (y - foldl Rmin x l)
                            / (foldl Rmax x l - foldl Rmin x l)) <$> x :: l)).
Proof.
  set (lo := foldl Rmin x l). set (hi := foldl Rmax x l).
  unfold min_max. rewrite reduce_fmin_fin. fold lo. rewrite result_bind_ok.
  assert (Hd1 : (λ v, fsub v (Fin lo)) <$> (Fin <$> x :: l)
              = Fin <$> ((λ y, y - lo) <$> x :: l)).
  { rewrite <- !list_fmap_compose. by apply list_fmap_ext. }
  rewrite Hd1. rewrite (fmap_cons (λ y, y - lo)), reduce_fmax_fin.
  rewrite (foldl_Rmax_fmap (λ y, y - lo)) by (intros; lra). fold hi.
  rewrite result_bind_ok, <- (fmap_cons (λ y, y - lo)).
  f_equal. rewrite <- list_fmap_compose.
  destruct (Req_dec_T (hi - lo) 0) as [H0 | Hn0].
  - rewrite <- list_fmap_compose, <- (length_cons x l).
    apply fmap_replicate_const. intros y Hy. simpl.
    destruct (Req_dec_T (hi - lo) 0); [| contradiction].
    rewrite (range_zero_const x l y H0 Hy). fold lo.
    replace (lo - lo) with 0 by lra. apply signed_inf_0.
  - rewrite <- !list_fmap_compose. apply list_fmap_ext. intros _ y _. simpl.
    destruct (Req_dec_T (hi - lo) 0); [contradiction | reflexivity].
Qed.

End MinMaxFacts.

Section UnitScaleFacts.
Local Open Scope R_scope.

Lemma varies_cons_inv (xs : list R) : varies xs → ∃ x l, xs = x :: l.
Proof.
  intros (a & b & Ha & _). destruct xs as [| x l]; [by apply elem_of_nil in Ha | eauto].
Qed.

Lemma min_max_varies (xs : list R) :
  varies xs → min_max (Fin <$> xs) = Ok (Fin <$> unit_scale xs).
Proof.
  intros Hv. destruct (varies_cons_inv xs Hv) as (x & l & ->).
  destruct Hv as (a & b & Ha & Hb & Hab).
  rewrite min_max_fin. unfold unit_scale.
  pose proof (range_pos x l a b Ha Hb Hab).
  destruct (Req_dec_T _ 0); [lra | reflexivity].
Qed.

Lemma min_max_const (x : R) (l : list R) :
  (∀ y, y ∈ l → y = x) →
  min_max (Fin <$> x :: l) = Ok (replicate (S (length l)) NaN).
Proof.
  intros Hc. rewrite min_max_fin.
  destruct (Req_dec_T _ 0) as [| Hn]; [reflexivity |]. exfalso. apply Hn.
  assert (Hall : ∀ y, y ∈ x :: l → y = x).
  { intros y [-> | Hy]%elem_of_cons; [reflexivity | by apply Hc]. }
  assert (Hlo : foldl Rmin x l = x).
  { clear Hn Hall. revert Hc. induction l as [| z l IH]; intros Hc; [reflexivity |].
    simpl. rewrite (Hc z) by left. rewrite Rmin_left by lra.
    apply IH. intros y Hy. apply Hc. by right. }
  assert (Hhi : foldl Rmax x l = x).
  { clear Hn Hall Hlo. revert Hc. induction l as [| z l IH]; intros Hc; [reflexivity |].
    simpl. rewrite (Hc z) by left. rewrite Rmax_left by lra.
    apply IH. intros y Hy. apply Hc. by right. }
  rewrite Hlo, Hhi. lra.
Qed.

Lemma foldl_fmin_nan (l : list fval) : foldl fmin NaN l = NaN.
Proof. induction l as [| y l IH]; [reflexivity | exact IH]. Qed.

Lemma foldl_fmax_nan (l : list fval) : foldl fmax NaN l = NaN.
Proof. induction l as [| y l IH]; [reflexivity | exact IH]. Qed.

Lemma reduce_fmin_nan (n : nat) : reduce fmin (replicate (S n) NaN) = Ok NaN.
Proof. simpl. by rewrite foldl_fmin_nan. Qed.

Lemma reduce_fmax_nan (n : nat) : reduce fmax (replicate (S n) NaN) = Ok NaN.
Proof. simpl. by rewrite foldl_fmax_nan. Qed.

Lemma min_max_nan (n : nat) :
  min_max (replicate (S n) NaN) = Ok (replicate (S n) NaN).
Proof.
  unfold min_max. rewrite reduce_fmin_nan, result_bind_ok, fmap_replicate.
  change (fsub NaN NaN) with NaN.
  by rewrite reduce_fmax_nan, result_bind_ok, fmap_replicate.
Qed.

(** The normalized values have minimum 0 and maximum 1. *)
Lemma unit_scale_range (x : R) (l : list R) :
  varies (x :: l) →
  ∃ x' l', unit_scale (x :: l) = x' :: l'
    ∧ foldl Rmin x' l' = 0 ∧ foldl Rmax x' l' = 1.
Proof.
  intros (a & b & Ha & Hb & Hab).
  pose proof (range_pos x l a b Ha Hb Hab) as Hpos.
  set (lo := foldl Rmin x l) in *. set (hi := foldl Rmax x l) in *.
  assert (Hmono : ∀ u v, u <= v → (u - lo) / (hi - lo) <= (v - lo) / (hi - lo)).
  { intros u v Huv. apply Rmult_le_compat_r; [| lra].
    left. by apply Rinv_0_lt_compat. }
  eexists _, _. split; [unfold unit_scale; by rewrite fmap_cons |].
  fold lo hi. split.
  - rewrite (foldl_Rmin_fmap (λ y, (y - lo) / (hi - lo))) by exact Hmono.
    fold lo. field. lra.
  - rewrite (foldl_Rmax_fmap (λ y, (y - lo) / (hi - lo))) by exact Hmono.
    fold hi. field. lra.
Qed.

Lemma unit_scale_idempotent (xs : list R) :
  varies xs → unit_scale (unit_scale xs) = unit_scale xs.
Proof.
  intros Hv. destruct (varies_cons_inv xs Hv) as (x & l & ->).
  destruct (unit_scale_range x l Hv) as (x' & l' & -> & Hlo & Hhi).
  unfold unit_scale. rewrite Hlo, Hhi.
  rewrite <- (list_fmap_id (x' :: l')) at 2.
  apply list_fmap_ext. intros _ y _. simpl. field.
Qed.

Lemma unit_scale_varies (xs : list R) : varies xs → varies (unit_scale xs).
Proof.
  intros Hv. destruct (varies_cons_inv xs Hv) as (x & l & ->).
  destruct Hv as (a & b & Ha & Hb & Hab).
  pose proof (range_pos x l a b Ha Hb Hab) as Hpos.
  set (lo := foldl Rmin x l) in *. set (hi := foldl Rmax x l) in *.
  exists ((a - lo) / (hi - lo)), ((b - lo) / (hi - lo)).
  unfold unit_scale. fold lo hi.
  split; [| split].
  - apply (list_elem_of_fmap_2 (λ y, (y - lo) / (hi - lo))). exact Ha.
  - apply (list_elem_of_fmap_2 (λ y, (y - lo) / (hi - lo))). exact Hb.
  - intros Heq. apply Hab.
    apply (Rmult_eq_compat_r (hi - lo)) in Heq.
    unfold Rdiv in Heq. rewrite !Rmult_assoc, Rinv_l, !Rmult_1_r in Heq by lra. lra.
Qed.



(** Whatever finite data it starts from, a second normalization changes
    nothing. *)
Lemma min_max_twice (xs : list R) (d : list fval) :
  min_max (Fin <$> xs) = Ok d → min_max d = Ok d.
Proof.
  destruct xs as [| x l]; [discriminate |].
  rewrite min_max_fin. destruct (Req_dec_T _ 0) as [H0 | Hn0]; intros [= <-].
  - apply min_max_nan.
  - assert (Hv : varies (x :: l)).
    { exists (foldl Rmax x l), (foldl Rmin x l).
      split; [apply foldl_Rmax_elem | split; [apply foldl_Rmin_elem | lra]]. }
    change (min_max (Fin <$> unit_scale (x :: l)) = Ok (Fin <$> unit_scale (x :: l))).
    rewrite min_max_varies by (by apply unit_scale_varies).
    by rewrite unit_scale_idempotent.
Qed.

Lemma float32_max_large : 1000 <= float32_max.
Proof.
  unfold float32_max. apply (IZR_le 1000). vm_compute. discriminate.
Qed.



(** Values between -500 and 500 are far from overflowing. *)
Lemma spread_bounded_small (xs : list R) :
  Forall (λ x, -500 <= x <= 500) xs → spread_bounded xs.
Proof.
  intros Hxs a b Ha Hb. rewrite Forall_forall in Hxs.
  pose proof (Hxs a Ha). pose proof (Hxs b Hb).
  pose proof float32_max_large. lra.
Qed.

End UnitScaleFacts.

(** ** In-place normalization in the store *)

Section StoreFacts.
Context {sk : Sklearn}.

Lemma bind_ok {S A B} (m : M S A) (k : A → M S B) (s s' : S) (a : A) :
  m s = (Ok a, s') → (m ≫= k) s = k a s'.
Proof. intros H. unfold mbind, M_bind. by rewrite H. Qed.

Lemma bind_raise {S A B} (m : M S A) (k : A → M S B) (s s' : S) (e : exn) :
  m s = (Raise e, s') → (m ≫= k) s = (Raise e, s').
Proof. intros H. unfold mbind, M_bind. by rewrite H. Qed.

Lemma read_ok (h : handle) (σ : mem) (d : list fval) :
  storage σ !! h_loc h = Some d → read h σ = (Ok d, σ).
Proof. intros H. unfold read. by rewrite H. Qed.

Lemma set_data_lookup (σ : mem) (l : nat) (d : list fval) :
  storage (set_data σ l d) !! l = Some d.
Proof. apply lookup_insert_eq. Qed.

Lemma set_data_lookup_ne (σ : mem) (l l' : nat) (d : list fval) :
  l ≠ l' → storage (set_data σ l d) !! l' = storage σ !! l'.
Proof. intros. by apply lookup_insert_ne. Qed.

Lemma set_data_twice (σ : mem) (l : nat) (d d' : list fval) :
  set_data (set_data σ l d) l d' = set_data σ l d'.
Proof. unfold set_data. simpl. by rewrite insert_insert_eq. Qed.

(** Run one [x ← read h; k x] whose storage lookup is known. *)
Ltac read_step :=
  erewrite bind_ok;
    [| erewrite bind_ok;
         [| apply read_ok; first [eassumption | apply lookup_insert_eq
                                 | by rewrite lookup_insert_ne]];
       reflexivity].

(** [prep_fd] overwrites the storage of its argument with the normalized
    values and returns a flat view on that same storage. *)
Lemma prep_fd_spec (h : handle) (σ : mem) (d : list fval) :
  storage σ !! h_loc h = Some d →
  prep_fd h σ
  = match min_max d with
    | Ok d' => (Ok {| h_loc := h_loc h; h_dev := h_dev h;
                      h_shape := [numel (h_shape h)] |},
                set_data σ (h_loc h) d')
    | Raise e => (Raise e, σ)
    end.
Proof.
  intros Hd. unfold prep_fd, h_min, h_isub, h_max, h_idiv. destruct d as [| x l].
  - erewrite bind_raise; [reflexivity |].
    erewrite bind_ok; [| by apply read_ok]. reflexivity.
  - do 4 read_step.
    unfold h_flatten, mret, M_ret, set_data. simpl. by rewrite insert_insert_eq.
Qed.

(** [plot_pr] on a CPU tensor normalizes the very storage it was given. *)
Lemma plot_pr_cpu (preds targets : handle) (name : string) (σ : mem)
    (d d' t : list fval) :
  h_dev preds = CPU →
  storage σ !! h_loc preds = Some d →
  min_max d = Ok d' →
  storage σ !! h_loc targets = Some t →
  h_loc targets ≠ h_loc preds →
  plot_pr preds targets name σ
  = pr_report (to_int64 <$> t) d' name (set_data σ (h_loc preds) d').
Proof.
  intros Hdev Hd Hmm Ht Hne. unfold plot_pr, h_cpu, h_min, h_isub, h_max, h_idiv.
  rewrite Hdev. destruct d as [| x l]; [discriminate |].
  erewrite bind_ok; [| reflexivity].
  do 4 read_step.
  erewrite bind_ok; [| apply read_ok; simpl; by rewrite !lookup_insert_ne].
  erewrite bind_ok; [| apply read_ok; apply lookup_insert_eq].
  unfold set_data. simpl. rewrite insert_insert_eq.
  unfold min_max in Hmm. simpl in Hmm. by injection Hmm as <-.
Qed.

(** [plot_pr] on a CUDA tensor normalizes a fresh CPU copy. *)
Lemma plot_pr_cuda (preds targets : handle) (name : string) (σ : mem)
    (d d' t : list fval) :
  h_dev preds = CUDA →
  storage σ !! h_loc preds = Some d →
  min_max d = Ok d' →
  storage σ !! h_loc targets = Some t →
  h_loc targets ≠ next_loc σ →
  plot_pr preds targets name σ
  = pr_report (to_int64 <$> t) d' name
      {| storage := <[next_loc σ := d']> (storage σ);
         next_loc := S (next_loc σ); trace := trace σ |}.
Proof.
  intros Hdev Hd Hmm Ht Hne. unfold plot_pr, h_cpu, h_min, h_isub, h_max, h_idiv.
  rewrite Hdev. destruct d as [| x l]; [discriminate |].
  erewrite bind_ok;
    [| erewrite bind_ok; [| erewrite bind_ok; [| by apply read_ok]; reflexivity];
       reflexivity].
  do 4 read_step.
  erewrite bind_ok; [| apply read_ok; simpl; by rewrite !lookup_insert_ne].
  erewrite bind_ok; [| apply read_ok; apply lookup_insert_eq].
  simpl. rewrite !insert_insert_eq.
  unfold min_max in Hmm. simpl in Hmm. by injection Hmm as <-.
Qed.

(** [pr_report] only extends the trace, beginning with the call of
    [precision_recall_curve]. *)
Lemma pr_report_effect (targets : list Z) (p : list fval) (name : string) (σ : mem) :
  ∃ rest,
    (pr_report targets p name σ).2
    = {| storage := storage σ; next_loc := next_loc σ;
         trace := trace σ ++ PrecisionRecallCurve targets p :: rest |}.
Proof.
  unfold pr_report, emit, modify, lift, mbind, M_bind. simpl.
  destruct (precision_recall_curve targets p) as [[[pr rc] th] | e]; simpl.
  2: { exists []. reflexivity. }
  destruct (average_precision_score targets p) as [ap | e]; simpl.
  2: { eexists. rewrite <- app_assoc. reflexivity. }
  destruct (py_int (fmul ap (Fin 100))) as [pc | e]; simpl.
  2: { eexists. rewrite <- app_assoc. reflexivity. }
  eexists. rewrite <- !app_assoc. reflexivity.
Qed.


(** C5: min-max normalization is idempotent on a tensor of finite values that
    are not all equal and whose spread [max - min] does not overflow in
    single precision.  [prep_fd] leaves the normalized values in the storage
    of its argument, normalizing those again returns them unchanged, and a
    second [prep_fd] on the returned view changes neither the store nor the
    view.  (The first pass leaves the minimum 0 and the maximum 1; the second
    subtracts 0 and divides by 1.) *)
Theorem prep_fd_idempotent (h : handle) (σ : mem) (xs : list R) :
  storage σ !! h_loc h = Some (Fin <$> xs) →
  varies xs →
  spread_bounded xs →
  ∃ h' σ' d,
    prep_fd h σ = (Ok h', σ')
    ∧ storage σ' !! h_loc h = Some d
    ∧ min_max (Fin <$> xs) = Ok d
    ∧ min_max d = Ok d
    ∧ prep_fd h' σ' = (Ok h', σ').
Proof.
  intros Hd Hv _. rewrite (prep_fd_spec h σ _ Hd), (min_max_varies xs Hv).
  eexists _, _, _. split; [reflexivity |].
  split; [apply set_data_lookup |]. split; [reflexivity |].
  assert (Htw : min_max (Fin <$> unit_scale xs) = Ok (Fin <$> unit_scale xs)).
  { apply (min_max_twice xs). by apply min_max_varies. }
  split; [exact Htw |].
  erewrite prep_fd_spec by apply set_data_lookup. rewrite Htw. simpl.
  rewrite set_data_twice. unfold numel. simpl. by rewrite Nat.mul_1_r.
Qed.

(** The claim as stated, for every tensor whose values are not all equal,
    fails on a tensor that holds an infinity, and on a finite tensor whose
    spread overflows.  On [0, +inf] the first [prep_fd] leaves [0, NaN] and
    the second [NaN, NaN].  In single precision the same happens to
    [-2^127, 2^127]: the subtraction of the minimum overflows. *)
Lemma prep_fd_not_idempotent :
  let h := {| h_loc := 0; h_dev := CPU; h_shape := [2%nat] |} in
  let σ := {| storage := {[0%nat := [Fin 0; PInf]]}; next_loc := 1; trace := [] |} in
  (∃ h' σ' σ'',
     prep_fd h σ = (Ok h', σ')
     ∧ prep_fd h' σ' = (Ok h', σ'')
     ∧ storage σ' !! 0%nat = Some [Fin 0; NaN]
     ∧ storage σ'' !! 0%nat = Some [NaN; NaN])
  ∧ Binary32.min_max [Binary32.of_scaled (-1) 127; Binary32.of_scaled 1 127]
    = Ok [SpecFloat.S754_zero false; SpecFloat.S754_nan]
  ∧ Binary32.min_max [SpecFloat.S754_zero false; SpecFloat.S754_nan]
    = Ok [SpecFloat.S754_nan; SpecFloat.S754_nan].
Proof.
  intros h σ. split; [| split; vm_compute; reflexivity].
  exists {| h_loc := 0; h_dev := CPU; h_shape := [2%nat] |},
    (set_data σ 0 [Fin 0; NaN]), (set_data σ 0 [NaN; NaN]).
  split; [by rewrite (prep_fd_spec h σ [Fin 0; PInf] eq_refl) |].
  split.
  - rewrite (prep_fd_spec {| h_loc := 0; h_dev := CPU; h_shape := [2%nat] |}
               (set_data σ 0 [Fin 0; NaN]) [Fin 0; NaN]
               (set_data_lookup σ 0 [Fin 0; NaN])).
    simpl. by rewrite set_data_twice.
  - split; apply set_data_lookup.
Qed.



(** C7: for a signal whose values are all equal, [prep_fd] raises nothing and
    leaves NaN in every element, and [plot_pr] hands exactly those NaNs to
    [precision_recall_curve]: nothing in between detects or replaces them. *)
Theorem constant_signal_reaches_sklearn (h targets : handle) (name : string)
    (σ : mem) (x : R) (l : list R) (t : list fval) :
  storage σ !! h_loc h = Some (Fin <$> x :: l) →
  (∀ y, y ∈ l → y = x) →
  storage σ !! h_loc targets = Some t →
  h_loc targets ≠ h_loc h →
  h_loc targets ≠ next_loc σ →
  ∃ h' σ',
    prep_fd h σ = (Ok h', σ')
    ∧ storage σ' !! h_loc h = Some (replicate (S (length l)) NaN)
    ∧ ∃ rest,
        trace (plot_pr h' targets name σ').2
        = trace σ ++ PrecisionRecallCurve (to_int64 <$> t)
                       (replicate (S (length l)) NaN) :: rest.
Proof.
  intros Hd Hc Ht Hne Hfresh.
  rewrite (prep_fd_spec h σ _ Hd), (min_max_const x l Hc).
  eexists _, _. split; [reflexivity |]. split; [apply set_data_lookup |].
  set (h' := {| h_loc := h_loc h; h_dev := h_dev h;
                h_shape := [numel (h_shape h)] |}).
  set (nan := replicate (S (length l)) NaN).
  set (σ' := set_data σ (h_loc h) nan).
  assert (Hts : storage σ' !! h_loc targets = Some t).
  { subst σ'. rewrite set_data_lookup_ne; [exact Ht | congruence]. }
  destruct (h_dev h) eqn:Hdev.
  - rewrite (plot_pr_cpu h' targets name σ' nan nan t eq_refl
               (set_data_lookup _ _ _) (min_max_nan _) Hts Hne).
    destruct (pr_report_effect (to_int64 <$> t) nan name
                (set_data σ' (h_loc h') nan)) as [rest ->].
    by exists rest.
  - rewrite (plot_pr_cuda h' targets name σ' nan nan t eq_refl
               (set_data_lookup _ _ _) (min_max_nan _) Hts Hfresh).
    match goal with |- context [pr_report ?a ?b ?c ?s] =>
      destruct (pr_report_effect a b c s) as [rest ->] end.
    by exists rest.
Qed.

Lemma bind_assoc {S A B C} (m : M S A) (k1 : A → M S B) (k2 : B → M S C) (s : S) :
  (m ≫= λ a, k1 a ≫= k2) s = ((m ≫= k1) ≫= k2) s.
Proof. unfold mbind, M_bind. by destruct (m s) as [[a | e] s']. Qed.

Lemma bind_ok_inv {S A B} (m : M S A) (k : A → M S B) (s s' : S) (b : B) :
  (m ≫= k) s = (Ok b, s') → ∃ a s1, m s = (Ok a, s1) ∧ k a s1 = (Ok b, s').
Proof.
  unfold mbind, M_bind. destruct (m s) as [[a | e] s1]; [eauto | discriminate].
Qed.

(** One curve of the plotting phase: [plot_pr(prep_fd(t), ld, name)].  When it
    completes, the storage of [t] holds the normalized values, every other
    tensor that existed before is untouched, and allocation only moved
    forward. *)
Lemma curve_step (h ld : handle) (name : string) (σ σ' : mem)
    (xs : list R) (t : list fval) :
  storage σ !! h_loc h = Some (Fin <$> xs) →
  storage σ !! h_loc ld = Some t →
  h_loc ld ≠ h_loc h →
  h_loc ld < next_loc σ →
  h_loc h < next_loc σ →
  (prep_fd h ≫= λ p, plot_pr p ld name) σ = (Ok tt, σ') →
  holds_normalized σ' h xs
  ∧ (∀ l, l ≠ h_loc h → l < next_loc σ → storage σ' !! l = storage σ !! l)
  ∧ next_loc σ ≤ next_loc σ'.
Proof.
  intros Hd Ht Hne Hld Hh Hrun.
  apply bind_ok_inv in Hrun as (p & σ1 & Hprep & Hplot).
  rewrite (prep_fd_spec h σ _ Hd) in Hprep.
  destruct (min_max (Fin <$> xs)) as [d |] eqn:Hmm; [| discriminate].
  injection Hprep as <- <-.
  pose proof (min_max_twice xs d Hmm) as Htw.
  assert (Hts : storage (set_data σ (h_loc h) d) !! h_loc ld = Some t).
  { rewrite set_data_lookup_ne; [exact Ht | congruence]. }
  destruct (h_dev h) eqn:Hdev.
  - erewrite plot_pr_cpu in Hplot;
      [| reflexivity | apply set_data_lookup | exact Htw | exact Hts | exact Hne].
    match type of Hplot with pr_report ?a ?b ?c ?s = _ =>
      destruct (pr_report_effect a b c s) as [rest Heff] end.
    rewrite Hplot in Heff. simpl in Heff. subst σ'. simpl.
    split; [exists d; split; [done |]; simpl; by rewrite !lookup_insert_eq |].
    split; [| done]. intros l Hl _. by rewrite !lookup_insert_ne.
  - assert (Hfresh : h_loc ld ≠ next_loc (set_data σ (h_loc h) d)) by (simpl; lia).
    erewrite plot_pr_cuda in Hplot;
      [| reflexivity | apply set_data_lookup | exact Htw | exact Hts | exact Hfresh].
    match type of Hplot with pr_report ?a ?b ?c ?s = _ =>
      destruct (pr_report_effect a b c s) as [rest Heff] end.
    rewrite Hplot in Heff. simpl in Heff. subst σ'. simpl.
    split.
    { exists d. split; [done |]. simpl.
      rewrite lookup_insert_ne by lia. by rewrite lookup_insert_eq. }
    split; [| lia]. intros l Hl Hlt.
    rewrite lookup_insert_ne by lia. by rewrite lookup_insert_ne.
Qed.

(** C10: [prep_fd] works in place: it returns a view on the storage of its
    argument, which then holds the normalized values.  So once the plotting
    phase has completed, the storage of each accumulated correlation tensor
    holds its min-max normalization instead of the raw correlations; the
    label-agreement tensor [ld] is left as it was. *)
Theorem plot_curves_overwrites_outputs (all_outputs : list (string * handle))
    (σ σ' : mem) (stego dino moco crf ld : handle)
    (xs xd xm xc : list R) (t : list fval) :
  dict_get all_outputs "stego_fd" = Ok stego →
  dict_get all_outputs "dino_fd" = Ok dino →
  dict_get all_outputs "moco_fd" = Ok moco →
  dict_get all_outputs "crf_fd" = Ok crf →
  dict_get all_outputs "ld" = Ok ld →
  storage σ !! h_loc stego = Some (Fin <$> xs) →
  storage σ !! h_loc dino = Some (Fin <$> xd) →
  storage σ !! h_loc moco = Some (Fin <$> xm) →
  storage σ !! h_loc crf = Some (Fin <$> xc) →
  storage σ !! h_loc ld = Some t →
  NoDup [h_loc stego; h_loc dino; h_loc moco; h_loc crf; h_loc ld] →
  Forall (λ l, l < next_loc σ) [h_loc stego; h_loc dino; h_loc moco; h_loc crf; h_loc ld] →
  plot_curves all_outputs σ = (Ok tt, σ') →
  (∃ view σ1, prep_fd stego σ = (Ok view, σ1)
     ∧ h_loc view = h_loc stego ∧ holds_normalized σ1 stego xs)
  ∧ holds_normalized σ' stego xs
  ∧ holds_normalized σ' dino xd
  ∧ holds_normalized σ' moco xm
  ∧ holds_normalized σ' crf xc
  ∧ storage σ' !! h_loc ld = Some t.
Proof.
  intros Gs Gd Gm Gc Gl Hs Hd Hm Hc Ht Hnd Hlt Hrun.
  apply NoDup_cons in Hnd as [Hn1 Hnd]. apply NoDup_cons in Hnd as [Hn2 Hnd].
  apply NoDup_cons in Hnd as [Hn3 Hnd]. apply NoDup_cons in Hnd as [Hn4 _].
  rewrite !not_elem_of_cons in Hn1. rewrite !not_elem_of_cons in Hn2.
  rewrite !not_elem_of_cons in Hn3. rewrite !not_elem_of_cons in Hn4.
  destruct Hn1 as (? & ? & ? & ? & _), Hn2 as (? & ? & ? & _),
           Hn3 as (? & ? & _), Hn4 as (? & _).
  rewrite !Forall_cons in Hlt. destruct Hlt as (? & ? & ? & ? & ? & _).
  unfold plot_curves in Hrun.
  erewrite bind_ok in Hrun by (unfold lift; by rewrite Gl).
  erewrite bind_ok in Hrun by (unfold lift; by rewrite Gs).
  rewrite bind_assoc in Hrun.
  apply bind_ok_inv in Hrun as ([] & σ1 & Hstep1 & Hrun).
  destruct (curve_step stego ld _ σ σ1 xs t Hs Ht ltac:(congruence)
              ltac:(done) ltac:(done) Hstep1) as ((d1 & Hmm1 & Hd1) & Hfr1 & Hnx1).
  erewrite bind_ok in Hrun by (unfold lift; by rewrite Gd).
  rewrite bind_assoc in Hrun.
  apply bind_ok_inv in Hrun as ([] & σ2 & Hstep2 & Hrun).
  assert (Hd' : storage σ1 !! h_loc dino = Some (Fin <$> xd))
    by (rewrite Hfr1 by done; done).
  assert (Ht1 : storage σ1 !! h_loc ld = Some t) by (rewrite Hfr1 by done; done).
  destruct (curve_step dino ld _ σ1 σ2 xd t Hd' Ht1 ltac:(congruence)
              ltac:(lia) ltac:(lia) Hstep2) as ((d2 & Hmm2 & Hd2) & Hfr2 & Hnx2).
  erewrite bind_ok in Hrun by (unfold lift; by rewrite Gm).
  rewrite bind_assoc in Hrun.
  apply bind_ok_inv in Hrun as ([] & σ3 & Hstep3 & Hrun).
  assert (Hm' : storage σ2 !! h_loc moco = Some (Fin <$> xm))
    by (rewrite Hfr2, Hfr1 by (done || lia); done).
  assert (Ht2 : storage σ2 !! h_loc ld = Some t) by (rewrite Hfr2 by (done || lia); done).
  destruct (curve_step moco ld _ σ2 σ3 xm t Hm' Ht2 ltac:(congruence)
              ltac:(lia) ltac:(lia) Hstep3) as ((d3 & Hmm3 & Hd3) & Hfr3 & Hnx3).
  erewrite bind_ok in Hrun by (unfold lift; by rewrite Gc).
  assert (Hc' : storage σ3 !! h_loc crf = Some (Fin <$> xc))
    by (rewrite Hfr3, Hfr2, Hfr1 by (done || lia); done).
  assert (Ht3 : storage σ3 !! h_loc ld = Some t) by (rewrite Hfr3 by (done || lia); done).
  destruct (curve_step crf ld _ σ3 σ' xc t Hc' Ht3 ltac:(congruence)
              ltac:(lia) ltac:(lia) Hrun) as ((d4 & Hmm4 & Hd4) & Hfr4 & Hnx4).
  split.
  { apply bind_ok_inv in Hstep1 as (view & σ0 & Hprep & _).
    exists view, σ0. split; [exact Hprep |].
    rewrite (prep_fd_spec stego σ _ Hs), Hmm1 in Hprep.
    injection Hprep as <- <-. split; [reflexivity |].
    exists d1. split; [done | apply set_data_lookup]. }
  split; [exists d1; split; [done |];
          rewrite Hfr4, Hfr3, Hfr2 by (done || lia); done |].
  split; [exists d2; split; [done |];
          rewrite Hfr4, Hfr3 by (done || lia); done |].
  split; [exists d3; split; [done |]; rewrite Hfr4 by (done || lia); done |].
  split; [by exists d4 |].
  rewrite Hfr4 by (done || lia). done.
Qed.

End StoreFacts.

(** ** The confusion matrix *)

Section ConfusionMatrixFacts.
Local Open Scope R_scope.

Local Abbreviation count := (λ c : nat, Fin (INR c)).

Lemma col_sums_counts (w : nat) (histogram : list (list nat)) :
  foldr (zip_with fadd) (replicate w (Fin 0))
    (fmap (M:=list) (fmap (M:=list) count) histogram)
  = count <$> foldr (zip_with Nat.add) (replicate w 0%nat) histogram.
Proof.
  induction histogram as [| row hist IH].
  - simpl. by rewrite fmap_replicate.
  - rewrite fmap_cons. simpl foldr. rewrite IH.
    generalize (foldr (zip_with Nat.add) (replicate w 0%nat) hist). clear IH.
    induction row as [| c row IHr]; intros [| a acc]; try reflexivity.
    rewrite !fmap_cons. simpl zip_with. rewrite fmap_cons, IHr.
    f_equal. simpl. by rewrite plus_INR.
Qed.

Lemma col_totals_lookup (w : nat) (histogram : list (list nat)) (j : nat) :
  Forall (λ row, length row = w) histogram →
  (j < w)%nat →
  foldr (zip_with Nat.add) (replicate w 0%nat) histogram !! j
  = Some (sum_list ((λ row, default 0%nat (row !! j)) <$> histogram)).
Proof.
  intros Hrect Hj. induction Hrect as [| row hist Hlen Hrect IH].
  - simpl. by rewrite lookup_replicate_2.
  - rewrite fmap_cons. simpl. rewrite lookup_zip_with, IH.
    destruct (row !! j) as [c |] eqn:Hc; [reflexivity |].
    apply lookup_ge_None in Hc. lia.
Qed.

Lemma cm_divisors_counts (histogram : list (list nat)) :
  cm_divisors histogram
  = (λ s : nat, Fin (Rmax (INR s) 1))
      <$> foldr (zip_with Nat.add)
            (replicate (length (default [] (head histogram))) 0%nat) histogram.
Proof.
  unfold cm_divisors, col_sums, clamp_min.
  assert (Hw : length (default [] (head (fmap (M:=list) (fmap (M:=list) count) histogram)))
             = length (default [] (head histogram))).
  { destruct histogram as [| row hist]; [reflexivity |]. simpl. apply length_fmap. }
  rewrite Hw, col_sums_counts, <- list_fmap_compose. reflexivity.
Qed.

(** C8: the histogram is divided by its column sums clamped below at 1:
    the divisor of a column is the larger of its sum and 1, and every entry
    of the normalized matrix is the count divided by the divisor of its
    column.  Every divisor is a finite number that is at least 1, so no
    division by zero occurs and every entry of the normalized matrix is
    finite; and in a column whose counts sum to zero every entry of the
    normalized matrix is 0. *)
Theorem plot_cm_clamped_division (histogram : list (list nat)) (w : nat) :
  Forall (λ row, length row = w) histogram →
  Forall (λ d, ∃ r, d = Fin r ∧ 1 <= r) (cm_divisors histogram)
  ∧ Forall (Forall is_finite) (cm_normalized histogram)
  ∧ (∀ j, (j < w)%nat →
      sum_list ((λ row, default 0%nat (row !! j)) <$> histogram) = 0%nat →
      Forall (λ row, row !! j = Some (Fin 0)) (cm_normalized histogram))
  ∧ (∀ i j row c, histogram !! i = Some row → row !! j = Some c →
      cm_divisors histogram !! j
      = Some (Fin (Rmax (INR (sum_list ((λ row, default 0%nat (row !! j))
                                          <$> histogram))) 1))
      ∧ ∃ cells,
          cm_normalized histogram !! i = Some cells
          ∧ cells !! j
            = Some (Fin (INR c
                         / Rmax (INR (sum_list ((λ row, default 0%nat (row !! j))
                                                  <$> histogram))) 1))).
Proof.
  intros Hrect.
  assert (Hdiv : Forall (λ d, ∃ r, d = Fin r ∧ 1 <= r) (cm_divisors histogram)).
  { rewrite cm_divisors_counts. apply Forall_fmap, Forall_forall.
    intros s _. simpl. eexists. split; [reflexivity | apply Rmax_r]. }
  split; [exact Hdiv |]. split; [| split].
  - unfold cm_normalized. apply Forall_fmap, Forall_fmap, Forall_forall.
    intros row _. simpl. revert Hdiv. generalize (cm_divisors histogram).
    induction row as [| c row IH]; intros [| d ds] Hds; simpl; try constructor.
    + apply Forall_cons in Hds as [(r & -> & Hr) _]. simpl.
      destruct (Req_dec_T r 0); [lra | exact I].
    + apply IH. by apply Forall_cons in Hds as [_ ?].
  - intros j Hj Hsum. destruct histogram as [| row0 hist]; [constructor |].
    assert (Hw : length (default [] (head (row0 :: hist))) = w).
    { simpl. by apply Forall_cons in Hrect as [? _]. }
    unfold cm_normalized. apply Forall_fmap, Forall_fmap, Forall_forall.
    intros row Hrow. simpl.
    rewrite cm_divisors_counts, Hw, lookup_zip_with, !list_lookup_fmap.
    rewrite (col_totals_lookup w _ j Hrect Hj), Hsum.
    rewrite Forall_forall in Hrect. pose proof (Hrect row Hrow) as Hlen.
    destruct (row !! j) as [c |] eqn:Hc;
      [| apply lookup_ge_None in Hc; lia].
    assert (c = 0%nat) as ->.
    { assert (Hin : c ∈ (λ row, default 0%nat (row !! j)) <$> row0 :: hist).
      { apply list_elem_of_fmap. exists row. by rewrite Hc. }
      apply (sum_list_with_in _ (@Datatypes.id nat)) in Hin.
      unfold Datatypes.id in Hin at 1. lia. }
    simpl. rewrite Rmax_right by lra.
    destruct (Req_dec_T 1 0); [lra |]. do 2 f_equal. lra.
  - intros i j row c Hrow Hc.
    assert (Hj : (j < w)%nat).
    { rewrite Forall_forall in Hrect.
      rewrite <- (Hrect row (list_elem_of_lookup_2 _ _ _ Hrow)).
      by eapply lookup_lt_Some. }
    assert (Hw : length (default [] (head histogram)) = w).
    { destruct histogram as [| row0 hist]; [done |].
      simpl. by apply Forall_cons in Hrect as [? _]. }
    assert (Hdj : cm_divisors histogram !! j
                  = Some (Fin (Rmax (INR (sum_list ((λ row, default 0%nat (row !! j))
                                                      <$> histogram))) 1))).
    { rewrite cm_divisors_counts, Hw, list_lookup_fmap.
      by rewrite (col_totals_lookup w _ j Hrect Hj). }
    split; [exact Hdj |].
    unfold cm_normalized. rewrite list_lookup_fmap, list_lookup_fmap, Hrow.
    eexists. split; [reflexivity |].
    rewrite lookup_zip_with, list_lookup_fmap, Hc, Hdj. simpl.
    destruct (Req_dec_T _ 0) as [H0 |]; [| reflexivity].
    pose proof (Rmax_r (INR (sum_list ((λ row, default 0%nat (row !! j))
                                         <$> histogram))) 1). lra.
Qed.

End ConfusionMatrixFacts.

(** ** The dataset-splitting script *)

Section ScriptFacts.
Import CreateDataset.
Context {py : PyStdlib}.

Example subset_path_value :
  subset_path = "/datadrive/true_color-30000-50-25-25-2022-12-18-18/imgs".
Proof. vm_compute. reflexivity. Qed.

Example slice_bounds :
  (train_start, train_end, val_start, val_end, test_start, test_end)
  = (0, 15000, 15000, 22500, 22500, 30000)%Z.
Proof. vm_compute. reflexivity. Qed.

Example path_name_stem :
  path_name "/datadrive/true_color/imgs/a.b.png" = "a.b.png"
  ∧ path_stem "/datadrive/true_color/imgs/a.b.png" = "a.b"
  ∧ path_stem "/datadrive/true_color/imgs/.png" = ".png".
Proof. vm_compute. repeat split; reflexivity. Qed.

(** The seed is fixed on a host, and differs between hosts whose local time
    differs. *)
Lemma seed_depends_on_utc_offset (o1 o2 : Z) :
  date_seed_timestamp o1 = date_seed_timestamp o2 ↔ o1 = o2.
Proof. unfold date_seed_timestamp. lia. Qed.

(** Sorting makes the listing independent of the order in which [glob]
    reports the files. *)
Lemma sorted_permutation (l1 l2 : list string) :
  l1 ≡ₚ l2 → sorted l1 = sorted l2.
Proof.
  intros Hp. unfold sorted.
  apply (Sorted_unique String.le); try apply Sorted_merge_sort; try apply _.
  by rewrite !merge_sort_Permutation.
Qed.

(** C9: two runs on hosts with the same UTC offset that find the same image
    files (in whatever order [glob] reports them, and whether or not the
    subset directory already exists) seed the generator with the same
    number, shuffle the files into the same order, put the same files into
    the train, val and test subsets, and create the same links under the same
    hash-prefixed names; the whole sequence of calls is the same when the
    subset directory exists in both runs or in neither. *)
Theorem script_deterministic (o1 o2 : Z) (run1 run2 : run_env) :
  glob run1 ≡ₚ glob run2 →
  o1 = o2 →
  date_seed_timestamp o1 = date_seed_timestamp o2
  ∧ dataset_files o1 run1 = dataset_files o2 run2
  ∧ train_files o1 run1 = train_files o2 run2
  ∧ val_files o1 run1 = val_files o2 run2
  ∧ test_files o1 run1 = test_files o2 run2
  ∧ links o1 run1 = links o2 run2
  ∧ (subset_exists run1 = subset_exists run2 →
     script o1 run1 = script o2 run2).
Proof.
  intros Hp <-. rename o1 into utc_offset. split; [reflexivity |].
  assert (Hfiles : dataset_files utc_offset run1 = dataset_files utc_offset run2).
  { unfold dataset_files. by rewrite (sorted_permutation _ _ Hp). }
  assert (Hlinks : links utc_offset run1 = links utc_offset run2).
  { unfold links, train_files, val_files, test_files. rewrite Hfiles. reflexivity. }
  split; [exact Hfiles |].
  split; [unfold train_files; rewrite Hfiles; reflexivity |].
  split; [unfold val_files; rewrite Hfiles; reflexivity |].
  split; [unfold test_files; rewrite Hfiles; reflexivity |].
  split; [exact Hlinks |].
  intros Hex. unfold script, setup. rewrite Hlinks, Hex. reflexivity.
Qed.

(** The claim as stated, for any two runs, fails: the seed is the POSIX
    timestamp of the naive local time 2022-12-18 18:00, which depends on the
    time zone of the host.  A run at UTC and a run one hour east of it seed
    the generator with different numbers, and a shuffle that depends on its
    seed then orders the same listing differently. *)
Lemma script_depends_on_time_zone :
  let env := {| glob := ["/d/a.png"; "/d/b.png"]; subset_exists := false |} in
  date_seed_timestamp 0 = 1671386400%Z
  ∧ date_seed_timestamp 3600 = 1671382800%Z
  ∧ dataset_files (py:=Samples.py_seeded) 0 env = ["/d/a.png"; "/d/b.png"]
  ∧ dataset_files (py:=Samples.py_seeded) 3600 env = ["/d/b.png"; "/d/a.png"]
  ∧ link_sources (links (py:=Samples.py_seeded) 0 env)
    ≠ link_sources (links (py:=Samples.py_seeded) 3600 env).
Proof.
  intros env. repeat split; try (vm_compute; reflexivity).
  vm_compute. discriminate.
Qed.

End ScriptFacts.

(** ** The statements at concrete inputs *)

Section Witnesses.
Import LitRecalibrator CreateDataset.
Local Open Scope R_scope.

Lemma get_net_fd_normalizes_features_only_witness :
  let self : gmap string (pyval (collab:=Stub.collaborators)) :=
    <["n_classes" := VInt 1]> ∅ in
  ∃ ld fd l1 l2,
    get_net_fd (collab:=Stub.collaborators) self
      [[[[Fin 3; Fin 4]]]] [[[[Fin 3; Fin 4]]]] [[[0%Z]]] [[[0%Z]]] [] []
    = Ok (ld, fd, l1, l2)
    ∧ data fd = [dot (normalize [Fin 3; Fin 4]) (normalize [Fin 3; Fin 4])]
    ∧ data ld = [dot [Fin 0; Fin 1] [Fin 0; Fin 1]].
Proof.
  intros self.
  eexists _, _, _, _. split; [reflexivity |].
  edestruct (get_net_fd_normalizes_features_only (collab:=Stub.collaborators) self
               [[[[Fin 3; Fin 4]]]] [[[[Fin 3; Fin 4]]]] [[[0%Z]]] [[[0%Z]]] [] [])
    as (n & hot1 & hot2 & Hn & H1 & H2 & Hfd & Hld & _); [reflexivity |].
  injection Hn as <-. injection H1 as <-. injection H2 as <-.
  split; [exact Hfd | exact Hld].
Defined.

Lemma prep_fd_idempotent_witness :
  let h := {| h_loc := 0; h_dev := CPU; h_shape := [2%nat] |} in
  let σ := {| storage := {[0%nat := [Fin 0; Fin 2]]}; next_loc := 1; trace := [] |} in
  ∃ h' σ' d,
    prep_fd h σ = (Ok h', σ')
    ∧ storage σ' !! h_loc h = Some d
    ∧ min_max (Fin <$> [0; 2]) = Ok d
    ∧ min_max d = Ok d
    ∧ prep_fd h' σ' = (Ok h', σ').
Proof.
  intros h σ. apply (prep_fd_idempotent h σ [0; 2]); [reflexivity | |].
  - exists 0, 2. split; [by left |]. split; [by right; left | lra].
  - apply spread_bounded_small. repeat constructor; lra.
Defined.


Lemma constant_signal_reaches_sklearn_witness :
  let h := {| h_loc := 0; h_dev := CPU; h_shape := [2%nat] |} in
  let targets := {| h_loc := 1; h_dev := CPU; h_shape := [2%nat] |} in
  let σ := {| storage := <[0%nat := [Fin 5; Fin 5]]> {[1%nat := [Fin 1; Fin 0]]};
              next_loc := 2; trace := [] |} in
  ∃ h' σ',
    prep_fd h σ = (Ok h', σ')
    ∧ storage σ' !! 0%nat = Some [NaN; NaN]
    ∧ ∃ rest,
        trace (plot_pr (sk:=Stub.sklearn) h' targets "CRF" σ').2
        = PrecisionRecallCurve (to_int64 <$> [Fin 1; Fin 0]) [NaN; NaN] :: rest.
Proof.
  intros h targets σ.
  apply (constant_signal_reaches_sklearn (sk:=Stub.sklearn) h targets "CRF" σ
           5 [5] [Fin 1; Fin 0]).
  - reflexivity.
  - intros y Hy. by apply list_elem_of_singleton in Hy.
  - reflexivity.
  - simpl. lia.
  - simpl. lia.
Defined.

Lemma plot_cm_clamped_division_witness :
  Forall (λ d, ∃ r, d = Fin r ∧ 1 <= r) (cm_divisors [[1; 0]; [2; 0]]%nat)
  ∧ Forall (Forall is_finite) (cm_normalized [[1; 0]; [2; 0]]%nat)
  ∧ (∀ j, (j < 2)%nat →
      sum_list ((λ row, default 0%nat (row !! j)) <$> [[1; 0]; [2; 0]]%nat) = 0%nat →
      Forall (λ row, row !! j = Some (Fin 0)) (cm_normalized [[1; 0]; [2; 0]]%nat))
  ∧ (∀ i j row c, [[1; 0]; [2; 0]]%nat !! i = Some row → row !! j = Some c →
      cm_divisors [[1; 0]; [2; 0]]%nat !! j
      = Some (Fin (Rmax (INR (sum_list ((λ row, default 0%nat (row !! j))
                                          <$> [[1; 0]; [2; 0]]%nat))) 1))
      ∧ ∃ cells,
          cm_normalized [[1; 0]; [2; 0]]%nat !! i = Some cells
          ∧ cells !! j
            = Some (Fin (INR c
                         / Rmax (INR (sum_list ((λ row, default 0%nat (row !! j))
                                                  <$> [[1; 0]; [2; 0]]%nat))) 1))).
Proof.
  apply (plot_cm_clamped_division [[1; 0]; [2; 0]]%nat 2).
  repeat constructor.
Defined.

Lemma script_deterministic_witness :
  let run1 := {| glob := ["/d/b.png"; "/d/a.png"]; subset_exists := false |} in
  let run2 := {| glob := ["/d/a.png"; "/d/b.png"]; subset_exists := true |} in
  date_seed_timestamp 3600 = date_seed_timestamp 3600
  ∧ dataset_files (py:=Stub.py_stdlib) 3600 run1 = dataset_files (py:=Stub.py_stdlib) 3600 run2
  ∧ train_files (py:=Stub.py_stdlib) 3600 run1 = train_files (py:=Stub.py_stdlib) 3600 run2
  ∧ val_files (py:=Stub.py_stdlib) 3600 run1 = val_files (py:=Stub.py_stdlib) 3600 run2
  ∧ test_files (py:=Stub.py_stdlib) 3600 run1 = test_files (py:=Stub.py_stdlib) 3600 run2
  ∧ links (py:=Stub.py_stdlib) 3600 run1 = links (py:=Stub.py_stdlib) 3600 run2
  ∧ (subset_exists run1 = subset_exists run2 →
     script (py:=Stub.py_stdlib) 3600 run1 = script (py:=Stub.py_stdlib) 3600 run2).
Proof.
  intros run1 run2.
  apply (script_deterministic (py:=Stub.py_stdlib) 3600 3600 run1 run2).
  - apply perm_swap.
  - reflexivity.
Defined.

Lemma plot_curves_overwrites_outputs_witness :
  let outputs := [Stub.step_outputs 1 0 4 7 1; Stub.step_outputs 3 2 2 7 0] in
  let tensor_at l := {| h_loc := l; h_dev := CUDA; h_shape := [2; 1; 1; 1; 1]%nat |} in
  ∃ all_outputs σ σ',
    accumulate CUDA outputs {| storage := ∅; next_loc := 0; trace := [] |}
      = (Ok all_outputs, σ)
    ∧ plot_curves (sk:=Stub.sklearn) all_outputs σ = (Ok tt, σ')
    ∧ (∃ view σ1, prep_fd (tensor_at 1%nat) σ = (Ok view, σ1)
         ∧ h_loc view = 1%nat ∧ holds_normalized σ1 (tensor_at 1%nat) [0; 2])
    ∧ holds_normalized σ' (tensor_at 1%nat) [0; 2]
    ∧ holds_normalized σ' (tensor_at 0%nat) [1; 3]
    ∧ holds_normalized σ' (tensor_at 2%nat) [4; 2]
    ∧ holds_normalized σ' (tensor_at 3%nat) [7; 7]
    ∧ storage σ' !! 4%nat = Some [Fin 1; Fin 0].
Proof.
  intros outputs tensor_at.
  set (all_outputs := [("dino_fd", tensor_at 0%nat); ("stego_fd", tensor_at 1%nat);
                       ("moco_fd", tensor_at 2%nat); ("crf_fd", tensor_at 3%nat);
                       ("ld", tensor_at 4%nat)]).
  set (σ := {| storage := <[4%nat := [Fin 1; Fin 0]]> (<[3%nat := [Fin 7; Fin 7]]>
                (<[2%nat := [Fin 4; Fin 2]]> (<[1%nat := [Fin 0; Fin 2]]>
                   (<[0%nat := [Fin 1; Fin 3]]> ∅))));
              next_loc := 5; trace := [] |}).
  assert (Hok : (plot_curves (sk:=Stub.sklearn) all_outputs σ).1 = Ok tt)
    by reflexivity.
  destruct (plot_curves (sk:=Stub.sklearn) all_outputs σ) as [r σ'] eqn:Hrun.
  simpl in Hok. subst r. exists all_outputs, σ, σ'.
  split; [reflexivity |]. split; [exact Hrun |].
  apply (plot_curves_overwrites_outputs (sk:=Stub.sklearn) all_outputs σ σ'
           (tensor_at 1%nat) (tensor_at 0%nat) (tensor_at 2%nat) (tensor_at 3%nat)
           (tensor_at 4%nat) [0; 2] [1; 3] [4; 2] [7; 7] [Fin 1; Fin 0]);
    try reflexivity.
  - repeat (apply NoDup_cons_2;
              [simpl; rewrite ?not_elem_of_cons; repeat split; (lia || apply not_elem_of_nil) |]).
    apply NoDup_nil_2.
  - repeat constructor; simpl; lia.
  - exact Hrun.
Defined.

End Witnesses.

(* ===================================================================== *)
(** * Further properties of the code *)
(* ===================================================================== *)

(** ** The per-step evaluation: what it needs and what it rejects *)

Section StepRequirements.
Import LitRecalibrator.
Context {collab : Collaborators}.

Lemma get_crf_fd_needs_crf (self : object) (img coords1 coords2 : tensor4) :
  self !! "crf" = None →
  ∃ e, get_crf_fd self img coords1 coords2 = Raise e.
Proof.
  intros Hno. unfold get_crf_fd, getattr. rewrite Hno.
  repeat match goal with
  | |- context [match ?o with Some _ => _ | None => _ end] => destruct o
  | |- ∃ e, (?r ≫= _) = Raise e => destruct r; simpl; eauto
  | |- ∃ e, (Ok ?a ≫= _) = Raise e => simpl
  end.
Qed.

(** Case on the outcome of the first action of a sequence that is to raise. *)
Ltac bind_case :=
  match goal with
  | |- ∃ e g', (?m ≫= ?k) ?s = (Raise e, g') =>
      let E := fresh "E" in
      destruct (m s) as [[? | ?] ?] eqn:E;
        [erewrite (bind_ok m k) by exact E
        | erewrite (bind_raise m k) by exact E; eauto]
  end.

(** X3: without a [crf] attribute [validation_step] returns nothing, whatever
    the batch.  On an object that has [dino], [moco] and [cfg] the step gets
    as far as [get_crf_fd]: both sets of coordinates have been drawn from the
    generator, and the exception is the one [get_crf_fd] raises on them. *)
Theorem validation_step_needs_crf (self : object) (b : batch) (batch_idx : nat)
    (g : generator) :
  self !! "crf" = None →
  (∃ e g', validation_step self b batch_idx g = (Raise e, g'))
  ∧ ∀ dino moco cfg,
      self !! "dino" = Some (VNet dino) →
      self !! "moco" = Some (VNet moco) →
      self !! "cfg" = Some (VCfg cfg) →
      let coord_shape := [length (batch_img b); feature_samples (train cfg);
                          feature_samples (train cfg); 2%nat] in
      ∃ e coords1 coords2 g1 g2,
        rand_coords coord_shape g = (Ok coords1, g1)
        ∧ rand_coords coord_shape g1 = (Ok coords2, g2)
        ∧ get_crf_fd self (batch_img b) coords1 coords2 = Raise e
        ∧ validation_step self b batch_idx g = (Raise e, g2).
Proof.
  intros Hno. split.
  - unfold validation_step.
    bind_case. destruct (_ (batch_img b)) as [dino_feats dino_code].
    bind_case. destruct (_ (batch_img b)) as [moco_feats moco_code].
    do 3 bind_case.
    edestruct (get_crf_fd_needs_crf self (batch_img b)) as [e He]; [exact Hno |].
    erewrite bind_raise by (unfold lift; by rewrite He). eauto.
  - intros dino moco cfg Hdino Hmoco Hcfg coord_shape.
    destruct (rand_coords coord_shape g) as [r1 g1] eqn:E1.
    assert (∃ coords1, r1 = Ok coords1) as [coords1 ->].
    { unfold rand_coords in E1. destruct (torch_rand coord_shape g).
      injection E1 as <- _. eauto. }
    destruct (rand_coords coord_shape g1) as [r2 g2] eqn:E2.
    assert (∃ coords2, r2 = Ok coords2) as [coords2 ->].
    { unfold rand_coords in E2. destruct (torch_rand coord_shape g1).
      injection E2 as <- _. eauto. }
    destruct (get_crf_fd_needs_crf self (batch_img b) coords1 coords2 Hno)
      as [e He].
    exists e, coords1, coords2, g1, g2.
    split; [reflexivity |]. split; [exact E2 |]. split; [exact He |].
    unfold validation_step.
    erewrite bind_ok by (unfold lift, getattr; rewrite Hdino; reflexivity).
    destruct (dino (batch_img b)) as [dino_feats dino_code].
    erewrite bind_ok by (unfold lift, getattr; rewrite Hmoco; reflexivity).
    destruct (moco (batch_img b)) as [moco_feats moco_code].
    erewrite bind_ok by (unfold lift, getattr; rewrite Hcfg; reflexivity).
    fold coord_shape.
    erewrite bind_ok by exact E1.
    erewrite bind_ok by exact E2.
    erewrite bind_raise by (unfold lift; by rewrite He).
    reflexivity.
Qed.

(** X4: Coordinates drawn as [torch.rand(...) * 2 - 1] lie in [-1, 1) whenever the
    generator returns numbers in [0, 1). *)
Theorem rand_coords_range (shp : list nat) (g : generator) :
  Forall (Forall (Forall (Forall (λ x, ∃ u, x = Fin u ∧ (0 <= u < 1)%R))))
    (torch_rand shp g).1 →
  ∃ coords,
    rand_coords shp g = (Ok coords, (torch_rand shp g).2)
    ∧ Forall (Forall (Forall (Forall (λ x, ∃ c, x = Fin c ∧ (-1 <= c < 1)%R))))
        coords.
Proof.
  intros Hu. unfold rand_coords. destruct (torch_rand shp g) as [u g'].
  eexists. split; [reflexivity |]. simpl in *.
  unfold map4, map3.
  do 4 (apply Forall_fmap; eapply Forall_impl; [eassumption |];
        clear Hu; intros ? Hu; simpl).
  destruct Hu as (r & -> & Hr). simpl. eexists. split; [reflexivity | lra].
Qed.

Lemma mapM_raise {A B} (f : A → result B) (l : list A) (x : A) (e : exn) :
  x ∈ l → f x = Raise e → ∃ e', mapM (M:=result) f l = Raise e'.
Proof.
  intros Hx Hf. induction l as [| y l IH]; [by apply elem_of_nil in Hx |].
  simpl. apply elem_of_cons in Hx as [<- | Hx].
  - rewrite Hf. simpl. eauto.
  - destruct (f y); simpl; [| eauto].
    destruct (IH Hx) as [e' ->]. simpl. eauto.
Qed.

Lemma one_hot_out_of_range (labels : labelmap) (n : nat)
    (img : list (list Z)) (row : list Z) (l : Z) :
  img ∈ labels → row ∈ img → l ∈ row →
  (l < -1 ∨ Z.of_nat n <= l)%Z →
  ∃ e, one_hot (map3 Z.succ labels) (n + 1) = Raise e.
Proof.
  intros Himg Hrow Hl Hout. unfold one_hot, mapM3, map3.
  assert (H1 : ∃ e, one_hot_vec (n + 1) (Z.succ l) = Raise e).
  { unfold one_hot_vec. rewrite decide_False by lia. eauto. }
  destruct H1 as [e1 H1].
  edestruct (mapM_raise (one_hot_vec (n + 1)) (Z.succ <$> row)) as [e2 H2];
    [apply list_elem_of_fmap_2; exact Hl | exact H1 |].
  edestruct (mapM_raise (mapM (M:=result) (one_hot_vec (n + 1)))
               (fmap (M:=list) Z.succ <$> img)) as [e3 H3];
    [apply (list_elem_of_fmap_2 (fmap Z.succ)); exact Hrow | exact H2 |].
  eapply mapM_raise; [| exact H3].
  apply (list_elem_of_fmap_2 (fmap (M:=list) (fmap (M:=list) Z.succ))). exact Himg.
Qed.

(** X5: [get_net_fd] accepts the labels -1 (ignore) to [n_classes - 1] only: one
    pixel labelled below -1 or at [n_classes] or above makes it raise. *)
Theorem get_net_fd_rejects_label (self : object) (n_classes : nat)
    (feats1 feats2 : tensor4) (label1 label2 : labelmap)
    (coords1 coords2 : tensor4) (img : list (list Z)) (row : list Z) (l : Z) :
  getattr self "n_classes" = Ok (VInt n_classes) →
  img ∈ label1 ++ label2 → row ∈ img → l ∈ row →
  (l < -1 ∨ Z.of_nat n_classes <= l)%Z →
  ∃ e, get_net_fd self feats1 feats2 label1 label2 coords1 coords2 = Raise e.
Proof.
  intros Hn Himg Hrow Hl Hout. unfold get_net_fd. rewrite Hn. simpl.
  apply elem_of_app in Himg as [Himg | Himg].
  - destruct (one_hot_out_of_range label1 n_classes img row l) as [e ->]; eauto.
  - destruct (one_hot (map3 Z.succ label1) (n_classes + 1)); simpl; [| eauto].
    destruct (one_hot_out_of_range label2 n_classes img row l) as [e ->]; eauto.
Qed.

End StepRequirements.

(** ** Normalization: range, order, the empty tensor *)

Section NormalizationFacts.
Local Open Scope R_scope.

Lemma unit_scale_lookup (x : R) (l : list R) (i : nat) (a : R) :
  (x :: l) !! i = Some a →
  unit_scale (x :: l) !! i
  = Some ((a - foldl Rmin x l) / (foldl Rmax x l - foldl Rmin x l)).
Proof. intros Hi. unfold unit_scale. by rewrite list_lookup_fmap, Hi. Qed.

Lemma unit_scale_unit_interval (xs : list R) :
  varies xs →
  length (unit_scale xs) = length xs
  ∧ Forall (λ y, 0 <= y <= 1) (unit_scale xs)
  ∧ 0 ∈ unit_scale xs ∧ 1 ∈ unit_scale xs.
Proof.
  intros Hv.
  destruct (varies_cons_inv xs Hv) as (x & l & ->).
  destruct Hv as (u & v & Hu & Hv & Huv).
  pose proof (range_pos x l u v Hu Hv Huv) as Hpos.
  split; [unfold unit_scale; by rewrite length_fmap |].
  split; [| split].
  - unfold unit_scale. apply Forall_fmap, Forall_forall. intros y Hy. simpl.
    pose proof (foldl_Rmin_lower x l y Hy). pose proof (foldl_Rmax_upper x l y Hy).
    split.
    + apply Rmult_le_pos; [lra |]. left. by apply Rinv_0_lt_compat.
    + apply (Rmult_le_reg_r (foldl Rmax x l - foldl Rmin x l)); [exact Hpos |].
      unfold Rdiv. rewrite Rmult_assoc, Rinv_l by lra. lra.
  - apply list_elem_of_fmap. exists (foldl Rmin x l).
    split; [field; lra | apply foldl_Rmin_elem].
  - apply list_elem_of_fmap. exists (foldl Rmax x l).
    split; [field; lra | apply foldl_Rmax_elem].
Qed.

(** X6: [prep_fd] maps a tensor of finite values that are not all equal, and
    whose spread [max - min] does not overflow in single precision, onto
    [0, 1]: every element of the result lies between 0 and 1, and both 0 and
    1 occur.  (Without the bound on the spread the subtraction of the minimum
    overflows to infinity and the division leaves NaN.) *)
Theorem prep_fd_range (h : handle) (σ : mem) (xs : list R) :
  storage σ !! h_loc h = Some (Fin <$> xs) →
  varies xs →
  spread_bounded xs →
  ∃ h' σ' ys,
    prep_fd h σ = (Ok h', σ')
    ∧ storage σ' !! h_loc h = Some (Fin <$> ys)
    ∧ length ys = length xs
    ∧ Forall (λ y, 0 <= y <= 1) ys
    ∧ 0 ∈ ys ∧ 1 ∈ ys.
Proof.
  intros Hd Hv _. rewrite (prep_fd_spec h σ _ Hd), (min_max_varies xs Hv).
  destruct (unit_scale_unit_interval xs Hv) as (Hl & Hr & H0 & H1).
  eexists _, _, (unit_scale xs). split; [reflexivity |].
  split; [apply set_data_lookup |]. done.
Qed.

(** X7: [prep_fd] never inverts the order of two elements: on a tensor of
    finite values, not all equal, whose spread does not overflow in single
    precision, the position that held the smaller or an equal value before
    holds the smaller or an equal value after.  (Values that differ may
    become equal.) *)
Theorem prep_fd_monotone (h : handle) (σ : mem) (xs : list R)
    (i j : nat) (a b : R) :
  storage σ !! h_loc h = Some (Fin <$> xs) →
  varies xs →
  spread_bounded xs →
  xs !! i = Some a → xs !! j = Some b →
  ∃ h' σ' d a' b',
    prep_fd h σ = (Ok h', σ')
    ∧ storage σ' !! h_loc h = Some d
    ∧ d !! i = Some (Fin a') ∧ d !! j = Some (Fin b')
    ∧ (a <= b → a' <= b').
Proof.
  intros Hd Hv _ Hi Hj. rewrite (prep_fd_spec h σ _ Hd), (min_max_varies xs Hv).
  destruct (varies_cons_inv xs Hv) as (x & l & ->).
  destruct Hv as (u & v & Hu & Hv & Huv).
  pose proof (range_pos x l u v Hu Hv Huv) as Hpos.
  eexists _, _, _, _, _. split; [reflexivity |].
  split; [apply set_data_lookup |].
  rewrite !list_lookup_fmap, (unit_scale_lookup x l i a Hi),
    (unit_scale_lookup x l j b Hj). simpl.
  split; [reflexivity |]. split; [reflexivity |].
  assert (Hinv : 0 < / (foldl Rmax x l - foldl Rmin x l))
    by (by apply Rinv_0_lt_compat).
  unfold Rdiv. intros Hle. nra.
Qed.

(** X9: On a tensor without elements [prep_fd] raises (its [min()] has nothing to
    reduce) and the store is left as it was. *)
Theorem prep_fd_empty (h : handle) (σ : mem) :
  storage σ !! h_loc h = Some [] →
  ∃ what, prep_fd h σ = (Raise (RuntimeError what), σ).
Proof. intros Hd. rewrite (prep_fd_spec h σ _ Hd). simpl. eauto. Qed.

End NormalizationFacts.

(** ** What [plot_pr] reports and what it overwrites *)

Section PlotPrFacts.
Context {sk : Sklearn}.
Local Open Scope R_scope.

(** The store after [evs] were appended to the trace. *)
Local Abbreviation traced σ evs :=
  {| storage := storage σ; next_loc := next_loc σ; trace := trace σ ++ evs |}.

Lemma pr_report_run (targets : list Z) (p : list fval) (name : string) (σ : mem) :
  pr_report targets p name σ
  = match precision_recall_curve targets p with
    | Raise e => (Raise e, traced σ [PrecisionRecallCurve targets p])
    | Ok (precisions, recalls, _) =>
        match average_precision_score targets p with
        | Raise e => (Raise e, traced σ [PrecisionRecallCurve targets p;
                                         AveragePrecisionScore targets p])
        | Ok ap =>
            match py_int (fmul ap (Fin 100)) with
            | Raise e => (Raise e, traced σ [PrecisionRecallCurve targets p;
                                             AveragePrecisionScore targets p])
            | Ok percent =>
                (Ok tt, traced σ [PrecisionRecallCurve targets p;
                                  AveragePrecisionScore targets p;
                                  PltPlot recalls precisions
                                    ("AP=" +:+ pretty percent +:+ "% " +:+ name)])
            end
        end
    end.
Proof.
  unfold pr_report, emit, modify, lift, mbind, M_bind. simpl.
  destruct (precision_recall_curve targets p) as [[[pr rc] th] | e]; simpl;
    [| reflexivity].
  destruct (average_precision_score targets p) as [ap | e]; simpl;
    [| by rewrite <- app_assoc].
  destruct (py_int (fmul ap (Fin 100))) as [pc | e]; simpl;
    by rewrite <- !app_assoc.
Qed.

(** [plot_pr] normalizes either the storage of [preds] (CPU) or a fresh copy
    (CUDA) and then reports on the normalized values. *)
Lemma plot_pr_report (preds targets : handle) (name : string) (σ : mem)
    (d d' t : list fval) :
  storage σ !! h_loc preds = Some d →
  min_max d = Ok d' →
  storage σ !! h_loc targets = Some t →
  h_loc targets ≠ h_loc preds →
  h_loc targets ≠ next_loc σ →
  ∃ σ1,
    plot_pr preds targets name σ = pr_report (to_int64 <$> t) d' name σ1
    ∧ trace σ1 = trace σ
    ∧ storage σ1 = match h_dev preds with
                   | CPU => <[h_loc preds := d']> (storage σ)
                   | CUDA => <[next_loc σ := d']> (storage σ)
                   end.
Proof.
  intros Hd Hmm Ht Hne Hfresh. destruct (h_dev preds) eqn:Hdev.
  - rewrite (plot_pr_cpu preds targets name σ d d' t Hdev Hd Hmm Ht Hne).
    eexists. split; [reflexivity |]. split; reflexivity.
  - rewrite (plot_pr_cuda preds targets name σ d d' t Hdev Hd Hmm Ht Hfresh).
    eexists. split; [reflexivity |]. split; reflexivity.
Qed.

Lemma pr_report_storage (targets : list Z) (p : list fval) (name : string) (σ : mem) :
  storage (pr_report targets p name σ).2 = storage σ.
Proof. destruct (pr_report_effect targets p name σ) as [rest ->]. reflexivity. Qed.

(** X10: [plot_pr] overwrites its argument only when that lives on the CPU: a CPU
    tensor holds the normalized values afterwards, a CUDA tensor is left as it
    was (a copy was normalized); no other tensor that existed is changed in
    either case, the targets included. *)
Theorem plot_pr_overwrites_cpu_only (preds targets : handle) (name : string)
    (σ : mem) (d d' t : list fval) :
  storage σ !! h_loc preds = Some d →
  min_max d = Ok d' →
  storage σ !! h_loc targets = Some t →
  h_loc targets ≠ h_loc preds →
  (h_loc preds < next_loc σ)%nat →
  (h_loc targets < next_loc σ)%nat →
  storage (plot_pr preds targets name σ).2 !! h_loc preds
    = Some (match h_dev preds with CPU => d' | CUDA => d end)
  ∧ ∀ l, l ≠ h_loc preds → (l < next_loc σ)%nat →
      storage (plot_pr preds targets name σ).2 !! l = storage σ !! l.
Proof.
  intros Hd Hmm Ht Hne Hp Htl.
  destruct (plot_pr_report preds targets name σ d d' t Hd Hmm Ht Hne ltac:(lia))
    as (σ1 & -> & _ & Hst).
  rewrite pr_report_storage, Hst. destruct (h_dev preds).
  - split; [apply lookup_insert_eq |]. intros l Hl _. by apply lookup_insert_ne.
  - split; [rewrite lookup_insert_ne by lia; exact Hd |].
    intros l _ Hl. apply lookup_insert_ne. lia.
Qed.

(** X11: When [average_precision_score] returns NaN, [plot_pr] raises ValueError on
    [int(average_precision * 100)]: both scikit-learn calls were made, no
    curve is plotted. *)
Theorem plot_pr_nan_average_precision (preds targets : handle) (name : string)
    (σ : mem) (d d' t : list fval) (precisions recalls thresholds : list fval) :
  storage σ !! h_loc preds = Some d →
  min_max d = Ok d' →
  storage σ !! h_loc targets = Some t →
  h_loc targets ≠ h_loc preds →
  h_loc targets ≠ next_loc σ →
  precision_recall_curve (to_int64 <$> t) d' = Ok (precisions, recalls, thresholds) →
  average_precision_score (to_int64 <$> t) d' = Ok NaN →
  (plot_pr preds targets name σ).1 = Raise ValueError
  ∧ trace (plot_pr preds targets name σ).2
    = trace σ ++ [PrecisionRecallCurve (to_int64 <$> t) d';
                  AveragePrecisionScore (to_int64 <$> t) d'].
Proof.
  intros Hd Hmm Ht Hne Hfresh Hprc Hap.
  destruct (plot_pr_report preds targets name σ d d' t Hd Hmm Ht Hne Hfresh)
    as (σ1 & -> & Htr & _).
  rewrite pr_report_run, Hprc, Hap. simpl. by rewrite Htr.
Qed.

Lemma Int_part_bounds (r : R) : IZR (Int_part r) <= r < IZR (Int_part r) + 1.
Proof. destruct (base_Int_part r). lra. Qed.

Lemma Rtrunc_nonneg (r : R) : 0 <= r → IZR (Rtrunc r) <= r < IZR (Rtrunc r) + 1.
Proof.
  intros Hr. unfold Rtrunc. destruct (Rle_dec 0 r); [| contradiction].
  apply Int_part_bounds.
Qed.

(** X12: for a non-negative finite average precision [plot_pr] plots one
    curve, labelled [AP=<p>% <name>], where the integer [p] differs from the
    average precision times 100 by less than 1.  (The product is rounded
    before it is truncated, so [p] is the integer just below it or the one
    just above.) *)
Theorem plot_pr_label_percent (preds targets : handle) (name : string)
    (σ : mem) (d d' t : list fval) (precisions recalls thresholds : list fval)
    (ap : R) :
  storage σ !! h_loc preds = Some d →
  min_max d = Ok d' →
  storage σ !! h_loc targets = Some t →
  h_loc targets ≠ h_loc preds →
  h_loc targets ≠ next_loc σ →
  precision_recall_curve (to_int64 <$> t) d' = Ok (precisions, recalls, thresholds) →
  average_precision_score (to_int64 <$> t) d' = Ok (Fin ap) →
  0 <= ap →
  ∃ percent : Z,
    ap * 100 - 1 < IZR percent < ap * 100 + 1
    ∧ (plot_pr preds targets name σ).1 = Ok tt
    ∧ trace (plot_pr preds targets name σ).2
      = trace σ ++ [PrecisionRecallCurve (to_int64 <$> t) d';
                    AveragePrecisionScore (to_int64 <$> t) d';
                    PltPlot recalls precisions
                      ("AP=" +:+ pretty percent +:+ "% " +:+ name)].
Proof.
  intros Hd Hmm Ht Hne Hfresh Hprc Hap Hpos.
  destruct (plot_pr_report preds targets name σ d d' t Hd Hmm Ht Hne Hfresh)
    as (σ1 & -> & Htr & _).
  rewrite pr_report_run, Hprc, Hap. simpl.
  exists (Rtrunc (ap * 100)).
  split; [pose proof (Rtrunc_nonneg (ap * 100) ltac:(lra)); lra |].
  split; [reflexivity |]. by rewrite Htr.
Qed.

Lemma Int_part_unique (r : R) (z : Z) : IZR z <= r < IZR z + 1 → Int_part r = z.
Proof.
  intros [Hlo Hhi]. unfold Int_part.
  assert (Hup : (z + 1)%Z = up r).
  { apply tech_up; rewrite plus_IZR; simpl; lra. }
  lia.
Qed.

Lemma to_int64_agreement (r : R) :
  0 <= r <= 1 → to_int64 (Fin r) = if Req_dec_T r 1 then 1%Z else 0%Z.
Proof.
  intros [H0 H1].
  assert (Ht : Rtrunc r = if Req_dec_T r 1 then 1%Z else 0%Z).
  { unfold Rtrunc. destruct (Rle_dec 0 r); [| contradiction].
    destruct (Req_dec_T r 1) as [-> | Hne]; apply Int_part_unique; simpl; lra. }
  unfold to_int64. rewrite Ht.
  destruct (Req_dec_T r 1); by rewrite decide_True by lia.
Qed.

(** X13: The targets given to scikit-learn are the label agreements cast to
    integers: an agreement of exactly 1 is a positive, every agreement below
    1, however close, is a negative. *)
Theorem plot_pr_binarizes_targets (preds targets : handle) (name : string)
    (σ : mem) (d d' : list fval) (ts : list R) :
  storage σ !! h_loc preds = Some d →
  min_max d = Ok d' →
  storage σ !! h_loc targets = Some (Fin <$> ts) →
  h_loc targets ≠ h_loc preds →
  h_loc targets ≠ next_loc σ →
  Forall (λ r, 0 <= r <= 1) ts →
  ∃ rest,
    trace (plot_pr preds targets name σ).2
    = trace σ ++ PrecisionRecallCurve
                   ((λ r, if Req_dec_T r 1 then 1%Z else 0%Z) <$> ts) d' :: rest.
Proof.
  intros Hd Hmm Ht Hne Hfresh Hts.
  destruct (plot_pr_report preds targets name σ d d' _ Hd Hmm Ht Hne Hfresh)
    as (σ1 & -> & Htr & _).
  destruct (pr_report_effect (to_int64 <$> (Fin <$> ts)) d' name σ1) as [rest ->].
  exists rest. simpl. rewrite Htr. do 2 f_equal.
  rewrite <- list_fmap_compose. f_equal. apply Forall_fmap_ext_1.
  eapply Forall_impl; [exact Hts |]. intros r Hr. by apply to_int64_agreement.
Qed.

End PlotPrFacts.

(** ** Accumulating the step outputs *)

Section AccumulateFacts.
Context {sk : Sklearn}.

Lemma accumulate_unfold (dv : device) (first : list (string * tensor))
    (rest : list (list (string * tensor))) :
  accumulate dv (first :: rest)
  = mapM (M:=M mem) (gather dv (first :: rest)) (first.*1).
Proof. reflexivity. Qed.

Lemma gather_inv (dv : device) (outputs : list (list (string * tensor)))
    (k : string) (σ σ' : mem) (r : result (string * handle)) :
  gather dv outputs k σ = (r, σ') →
  trace σ' = trace σ
  ∧ (∀ l, (l < next_loc σ)%nat → storage σ' !! l = storage σ !! l)
  ∧ (next_loc σ ≤ next_loc σ')%nat
  ∧ ∀ kh, r = Ok kh →
      ∃ ts, mapM (M:=result) (λ o, dict_get o k) outputs = Ok ts
        ∧ kh.1 = k ∧ h_loc kh.2 = next_loc σ ∧ h_dev kh.2 = dv
        ∧ next_loc σ' = S (next_loc σ)
        ∧ storage σ' !! next_loc σ = Some (concat (data <$> ts)).
Proof.
  unfold gather, mbind, M_bind, lift, mret, M_ret.
  destruct (mapM _ outputs) as [ts | e]; [| intros [= <- <-]; by repeat split].
  unfold cat. destruct ts as [| t0 ts]; [intros [= <- <-]; by repeat split |].
  case_decide; unfold lift, alloc; simpl; intros [= <- <-]; simpl.
  - split; [done |]. split; [intros l Hl; apply lookup_insert_ne; lia |].
    split; [lia |]. intros kh [= <-]. eexists. split; [reflexivity |]. simpl.
    by rewrite lookup_insert_eq.
  - by repeat split.
Qed.

Lemma mapM_gather_inv (dv : device) (outputs : list (list (string * tensor)))
    (keys : list string) (σ σ' : mem) (r : result (list (string * handle))) :
  mapM (M:=M mem) (gather dv outputs) keys σ = (r, σ') →
  trace σ' = trace σ
  ∧ (∀ l, (l < next_loc σ)%nat → storage σ' !! l = storage σ !! l)
  ∧ (next_loc σ ≤ next_loc σ')%nat
  ∧ ∀ all, r = Ok all →
      all.*1 = keys
      ∧ next_loc σ' = (next_loc σ + length keys)%nat
      ∧ ∀ i k h, all !! i = Some (k, h) →
          ∃ ts, mapM (M:=result) (λ o, dict_get o k) outputs = Ok ts
            ∧ h_loc h = (next_loc σ + i)%nat ∧ h_dev h = dv
            ∧ storage σ' !! h_loc h = Some (concat (data <$> ts)).
Proof.
  revert σ σ' r. induction keys as [| k keys IH]; intros σ σ' r.
  - simpl. intros [= <- <-]. do 3 (split; [done |]).
    intros all [= <-]. split; [done |]. split; [simpl; lia |].
    intros i k h Hi. done.
  - change (mapM (gather dv outputs) (k :: keys))
      with (gather dv outputs k ≫= λ y,
            mapM (M:=M mem) (gather dv outputs) keys ≫= λ r, mret (y :: r)).
    destruct (gather dv outputs k σ) as [[kh | e] σ1] eqn:Hk.
    + rewrite (bind_ok _ _ _ _ _ Hk).
      apply gather_inv in Hk as (Htr1 & Hold1 & Hnx1 & Hk).
      destruct (Hk kh eq_refl) as (ts & Hts & Hkey & Hloc & Hdev & Hnext & Hst).
      destruct (mapM (gather dv outputs) keys σ1) as [[all | e] σ2] eqn:Hrest.
      * rewrite (bind_ok _ _ _ _ _ Hrest).
        apply IH in Hrest as (Htr2 & Hold2 & Hnx2 & Hrest).
        destruct (Hrest all eq_refl) as (Hkeys & Hnext2 & Hall).
        unfold mret, M_ret. intros [= <- <-].
        split; [congruence |].
        split; [intros l Hl; rewrite Hold2 by lia; by apply Hold1 |].
        split; [lia |]. intros all' [= <-].
        split; [rewrite fmap_cons; by rewrite Hkey, Hkeys |].
        split; [simpl; lia |].
        intros [| i] k' h Hi; simpl in Hi.
        -- injection Hi as Hi. subst kh. simpl in *. subst k'.
           exists ts. split; [done |]. split; [lia |]. split; [done |].
           rewrite Hloc, Hold2 by lia. exact Hst.
        -- destruct (Hall i k' h Hi) as (ts' & Hts' & Hloc' & Hdev' & Hst').
           exists ts'. split; [done |]. split; [lia |]. by split.
      * rewrite (bind_raise _ _ _ _ _ Hrest).
        apply IH in Hrest as (Htr2 & Hold2 & Hnx2 & _).
        intros [= <- <-].
        split; [congruence |].
        split; [intros l Hl; rewrite Hold2 by lia; by apply Hold1 |].
        split; [lia |]. intros all' [=].
    + rewrite (bind_raise _ _ _ _ _ Hk).
      apply gather_inv in Hk as (Htr1 & Hold1 & Hnx1 & _).
      intros [= <- <-]. do 3 (split; [done |]). intros all [=].
Qed.

(** X14: When the accumulation loop completes, [all_outputs] has the keys of the
    first step in their order; the tensor under each key is fresh storage (the
    tensors are pairwise distinct and distinct from all earlier ones) on the
    device of the outputs and holds the elements of that key's tensors of all
    steps, in step order; nothing that existed is changed and nothing is
    plotted. *)
Theorem accumulate_spec (dv : device) (outputs : list (list (string * tensor)))
    (σ σ' : mem) (all_outputs : list (string * handle)) :
  accumulate dv outputs σ = (Ok all_outputs, σ') →
  ∃ first rest,
    outputs = first :: rest
    ∧ all_outputs.*1 = first.*1
    ∧ trace σ' = trace σ
    ∧ (∀ l, (l < next_loc σ)%nat → storage σ' !! l = storage σ !! l)
    ∧ ∀ i k h, all_outputs !! i = Some (k, h) →
        ∃ ts, mapM (M:=result) (λ o, dict_get o k) outputs = Ok ts
          ∧ h_loc h = (next_loc σ + i)%nat ∧ h_dev h = dv
          ∧ storage σ' !! h_loc h = Some (concat (data <$> ts)).
Proof.
  destruct outputs as [| first rest]; [discriminate |].
  rewrite accumulate_unfold.
  intros Hrun. apply mapM_gather_inv in Hrun as (Htr & Hold & _ & Hall).
  destruct (Hall all_outputs eq_refl) as (Hkeys & _ & Hat).
  exists first, rest. by repeat split.
Qed.

Lemma mapM_M_raise {S A B} (f : A → M S B) (l : list A) (x : A) (s : S) :
  x ∈ l →
  (∀ s0, ∃ e s1, f x s0 = (Raise e, s1)) →
  ∃ e s', mapM (M:=M S) f l s = (Raise e, s').
Proof.
  intros Hx Hf. revert s. induction l as [| y l IH]; intros s;
    [by apply elem_of_nil in Hx |].
  simpl. unfold mbind at 1, M_bind at 1.
  apply elem_of_cons in Hx as [<- | Hx].
  - destruct (Hf s) as (e & s1 & ->). eauto.
  - destruct (f y s) as [[b | e] s1]; [| eauto].
    unfold mbind at 1, M_bind at 1.
    destruct (IH Hx s1) as (e & s2 & ->). eauto.
Qed.

(** X15: [validation_epoch_end] plots nothing, not even the confusion matrix,
    unless there is a step and every step has every key of the first step:
    otherwise it raises before the plotting branch is reached. *)
Theorem validation_epoch_end_incomplete_outputs (cfg : DictConfig)
    (histogram : list (list nat)) (dv : device) (is_global_zero : bool)
    (outputs : list (list (string * tensor))) (σ : mem) :
  outputs = []
  ∨ (∃ first rest k o, outputs = first :: rest ∧ k ∈ first.*1 ∧ o ∈ outputs
       ∧ dict_get o k = Raise (KeyError k)) →
  ∃ e σ',
    validation_epoch_end cfg histogram dv is_global_zero outputs σ = (Raise e, σ')
    ∧ trace σ' = trace σ.
Proof.
  intros Hbad. unfold validation_epoch_end.
  assert (Hacc : ∃ e σ', accumulate dv outputs σ = (Raise e, σ')).
  { destruct Hbad as [-> | (first & rest & k & o & -> & Hk & Ho & Hget)].
    - simpl. unfold lift. eauto.
    - rewrite accumulate_unfold. apply (mapM_M_raise _ _ k); [exact Hk |].
      intros s0. destruct (mapM_raise (λ o, dict_get o k) (first :: rest) o _ Ho Hget)
        as [e He].
      unfold gather. erewrite bind_raise by (unfold lift; by rewrite He). eauto. }
  destruct Hacc as (e & σ' & Hacc).
  erewrite bind_raise by exact Hacc. exists e, σ'. split; [reflexivity |].
  destruct outputs as [| first rest].
  - by injection Hacc as _ <-.
  - rewrite accumulate_unfold in Hacc.
    by apply mapM_gather_inv in Hacc as (Htr & _).
Qed.

(** X16: A process that is not the one that plots only accumulates: the trace is
    left as it was, and the call succeeds exactly when the accumulation
    does. *)
Theorem validation_epoch_end_other_ranks (cfg : DictConfig)
    (histogram : list (list nat)) (dv : device)
    (outputs : list (list (string * tensor))) (σ : mem) :
  trace (validation_epoch_end cfg histogram dv false outputs σ).2 = trace σ
  ∧ storage (validation_epoch_end cfg histogram dv false outputs σ).2
    = storage (accumulate dv outputs σ).2
  ∧ ((∃ v, (validation_epoch_end cfg histogram dv false outputs σ).1 = Ok v)
     ↔ ∃ all_outputs, (accumulate dv outputs σ).1 = Ok all_outputs).
Proof.
  unfold validation_epoch_end, mbind, M_bind.
  destruct (accumulate dv outputs σ) as [[all | e] σ'] eqn:Hacc; simpl.
  - split; [| split; [done | split; eauto]].
    destruct outputs as [| first rest]; [discriminate |].
    rewrite accumulate_unfold in Hacc.
    by apply mapM_gather_inv in Hacc as (Htr & _).
  - split; [| split; [done | split; intros [? [=]]]].
    destruct outputs as [| first rest].
    + by injection Hacc as _ <-.
    + rewrite accumulate_unfold in Hacc.
      by apply mapM_gather_inv in Hacc as (Htr & _).
Qed.

End AccumulateFacts.

(** ** The confusion matrix: a column-stochastic matrix *)

Section ConfusionMatrixColumns.
Local Open Scope R_scope.

(** A count divided by the clamped total of its column. *)
Local Abbreviation share := (λ (c s : nat), INR c / Rmax (INR s) 1).

Local Abbreviation col_totals w histogram :=
  (foldr (zip_with Nat.add) (replicate w 0%nat) histogram).

Local Abbreviation col_total j histogram :=
  (sum_list ((λ row : list nat, default 0%nat (row !! j)) <$> histogram)).

Lemma col_totals_length (w : nat) (histogram : list (list nat)) :
  Forall (λ row, length row = w) histogram →
  length (col_totals w histogram) = w.
Proof.
  induction 1 as [| row hist Hlen _ IH]; simpl.
  - apply length_replicate.
  - rewrite length_zip_with, IH, Hlen. lia.
Qed.

Lemma row_shares (row totals : list nat) :
  zip_with fdiv ((λ c : nat, Fin (INR c)) <$> row)
    ((λ s : nat, Fin (Rmax (INR s) 1)) <$> totals)
  = Fin <$> zip_with share row totals.
Proof.
  revert totals. induction row as [| c row IH]; intros [| s totals];
    try reflexivity.
  rewrite !fmap_cons. simpl zip_with. rewrite fmap_cons, IH. f_equal.
  simpl. destruct (Req_dec_T (Rmax (INR s) 1) 0) as [H0 |]; [| reflexivity].
  pose proof (Rmax_r (INR s) 1). lra.
Qed.

Lemma cm_normalized_shares (histogram : list (list nat)) :
  cm_normalized histogram
  = (λ row, Fin <$> zip_with share row
                      (col_totals (length (default [] (head histogram))) histogram))
      <$> histogram.
Proof.
  unfold cm_normalized. rewrite cm_divisors_counts, <- list_fmap_compose.
  apply list_fmap_ext. intros _ row _. simpl. apply row_shares.
Qed.

Lemma col_sums_finite (w : nat) (rows : list (list R)) :
  foldr (zip_with fadd) (replicate w (Fin 0)) (fmap (M:=list) Fin <$> rows)
  = Fin <$> foldr (zip_with Rplus) (replicate w 0) rows.
Proof.
  induction rows as [| row rows IH].
  - simpl. by rewrite fmap_replicate.
  - rewrite fmap_cons. simpl foldr. rewrite IH.
    generalize (foldr (zip_with Rplus) (replicate w 0) rows). clear IH.
    induction row as [| c row IHr]; intros [| a acc]; try reflexivity.
    rewrite !fmap_cons. simpl zip_with. by rewrite fmap_cons, IHr.
Qed.

Lemma shares_column_sum (w : nat) (histogram : list (list nat))
    (totals : list nat) (j t : nat) :
  Forall (λ row, length row = w) histogram →
  (j < w)%nat →
  totals !! j = Some t →
  foldr (zip_with Rplus) (replicate w 0)
    ((λ row, zip_with share row totals) <$> histogram) !! j
  = Some (INR (col_total j histogram) / Rmax (INR t) 1).
Proof.
  intros Hrect Hj Ht. induction Hrect as [| row hist Hlen _ IH].
  - simpl. rewrite lookup_replicate_2 by exact Hj. f_equal. unfold Rdiv. ring.
  - rewrite !fmap_cons. simpl foldr. rewrite lookup_zip_with, lookup_zip_with, IH.
    destruct (row !! j) as [c |] eqn:Hc;
      [| apply lookup_ge_None in Hc; lia].
    rewrite Ht. simpl. f_equal. rewrite plus_INR.
    pose proof (Rmax_r (INR t) 1). field. lra.
Qed.

(** X17: Every column of the normalized confusion matrix (every row of the heatmap)
    sums to 1, except that the column of a class without any count sums to
    0. *)
Theorem plot_cm_columns_sum_to_one (histogram : list (list nat)) (w j : nat) :
  histogram ≠ [] →
  Forall (λ row, length row = w) histogram →
  (j < w)%nat →
  col_sums (cm_normalized histogram) !! j
  = Some (Fin (if decide (col_total j histogram = 0%nat) then 0 else 1)).
Proof.
  intros Hne Hrect Hj.
  destruct histogram as [| row0 hist]; [done |].
  assert (Hw : length (default [] (head (row0 :: hist))) = w).
  { simpl. by apply Forall_cons in Hrect as [? _]. }
  pose proof (col_totals_length w _ Hrect) as Hlen.
  rewrite cm_normalized_shares, Hw. unfold col_sums.
  set (totals := col_totals w (row0 :: hist)) in *.
  assert (Hw' : length (default [] (head ((λ row, Fin <$> zip_with share row totals)
                                             <$> row0 :: hist))) = w).
  { simpl. rewrite length_fmap, length_zip_with, Hlen.
    apply Forall_cons in Hrect as [-> _]. lia. }
  rewrite Hw'.
  assert (Heq : (λ row, Fin <$> zip_with share row totals) <$> row0 :: hist
               = fmap (M:=list) Fin <$> ((λ row, zip_with share row totals)
                                           <$> row0 :: hist))
    by (by rewrite <- list_fmap_compose).
  rewrite Heq, col_sums_finite, list_lookup_fmap.
  rewrite (shares_column_sum w _ totals j (col_total j (row0 :: hist)) Hrect Hj)
    by (subst totals; by apply col_totals_lookup).
  generalize (col_total j (row0 :: hist)). intros T.
  simpl. do 2 f_equal. case_decide as Hz.
  - rewrite Hz. simpl. unfold Rdiv. ring.
  - assert (1 <= INR T).
    { change 1 with (INR 1). apply le_INR. lia. }
    rewrite Rmax_left by lra. field. lra.
Qed.

(** X18: Every entry of the normalized confusion matrix lies between 0 and 1. *)
Theorem plot_cm_entries_in_unit_interval (histogram : list (list nat)) (w : nat) :
  Forall (λ row, length row = w) histogram →
  Forall (Forall (λ x, ∃ r, x = Fin r ∧ 0 <= r <= 1)) (cm_normalized histogram).
Proof.
  intros Hrect. destruct histogram as [| row0 hist]; [constructor |].
  assert (Hw : length (default [] (head (row0 :: hist))) = w).
  { simpl. by apply Forall_cons in Hrect as [? _]. }
  rewrite cm_normalized_shares, Hw.
  set (totals := col_totals w (row0 :: hist)).
  apply Forall_fmap, Forall_forall. intros row Hrow. simpl.
  apply Forall_fmap, Forall_lookup. intros j q Hq. simpl.
  apply lookup_zip_with_Some in Hq as (c & t & -> & Hc & Ht).
  eexists. split; [reflexivity |].
  assert (Hj : (j < w)%nat).
  { apply lookup_lt_Some in Ht. subst totals.
    by rewrite col_totals_length in Ht. }
  subst totals. rewrite (col_totals_lookup w _ j Hrect Hj) in Ht.
  injection Ht as <-.
  assert (Hle : (c <= col_total j (row0 :: hist))%nat).
  { assert (Hin : c ∈ (λ row : list nat, default 0%nat (row !! j)) <$> row0 :: hist).
    { apply list_elem_of_fmap. exists row. by rewrite Hc. }
    apply (sum_list_with_in _ (@Datatypes.id nat)) in Hin.
    unfold Datatypes.id in Hin at 1. exact Hin. }
  change (0 <= INR c / Rmax (INR (col_total j (row0 :: hist))) 1 <= 1).
  revert Hle. generalize (col_total j (row0 :: hist)). intros T Hle.
  apply le_INR in Hle. pose proof (pos_INR c).
  pose proof (Rmax_l (INR T) 1). pose proof (Rmax_r (INR T) 1).
  split.
  - apply Rmult_le_pos; [lra |]. left. apply Rinv_0_lt_compat. lra.
  - apply (Rmult_le_reg_r (Rmax (INR T) 1)); [lra |].
    unfold Rdiv. rewrite Rmult_assoc, Rinv_l by lra. lra.
Qed.

End ConfusionMatrixColumns.

(** ** The dataset-splitting script: the subsets and the link names *)

Section SubsetFacts.
Import CreateDataset.
Context {py : PyStdlib}.

Lemma slice_app {A} (l : list A) (a b c : Z) :
  (0 ≤ a ≤ b)%Z → (b ≤ c)%Z → slice l a b ++ slice l b c = slice l a c.
Proof.
  intros Hab Hbc. unfold slice.
  replace (drop (Z.to_nat b) l)
    with (drop (Z.to_nat b - Z.to_nat a) (drop (Z.to_nat a) l))
    by (rewrite drop_drop; f_equal; lia).
  rewrite take_take_drop. f_equal. lia.
Qed.

Lemma length_slice {A} (l : list A) (a b : Z) :
  length (slice l a b)
  = (Z.to_nat b - Z.to_nat a) `min` (length l - Z.to_nat a).
Proof. unfold slice. by rewrite length_take, length_drop. Qed.

Lemma length_slice_Z {A} (l : list A) (a b : Z) :
  (0 ≤ a)%Z → (0 ≤ b)%Z →
  Z.of_nat (length (slice l a b))
  = Z.min (Z.max 0 (b - a)) (Z.max 0 (Z.of_nat (length l) - a)).
Proof.
  intros Ha Hb.
  rewrite length_slice, Nat2Z.inj_min, !Nat2Z.inj_sub_max, !Z2Nat.id by lia.
  reflexivity.
Qed.

Lemma bounds_values :
  train_start = 0%Z ∧ train_end = 15000%Z ∧ val_start = 15000%Z
  ∧ val_end = 22500%Z ∧ test_start = 22500%Z ∧ test_end = 30000%Z
  ∧ dataset_size = 30000%Z.
Proof. vm_compute. by repeat split. Qed.

Lemma subsets_partition_prefix_eq (utc_offset : Z) (env : run_env) :
  train_files utc_offset env ++ val_files utc_offset env ++ test_files utc_offset env
  = take (Z.to_nat dataset_size) (dataset_files utc_offset env).
Proof.
  unfold train_files, val_files, test_files.
  destruct bounds_values as (-> & -> & -> & -> & -> & -> & ->).
  rewrite (slice_app _ 15000 22500 30000) by lia.
  rewrite (slice_app _ 0 15000 30000) by lia.
  unfold slice. rewrite Z2Nat.inj_0, Nat.sub_0_r. reflexivity.
Qed.

Lemma dataset_files_permutation (utc_offset : Z) (env : run_env) :
  (∀ seed l, shuffle seed l ≡ₚ l) →
  dataset_files utc_offset env ≡ₚ glob env.
Proof.
  intros Hsh. unfold dataset_files, sorted.
  by rewrite Hsh, merge_sort_Permutation.
Qed.

(** X19: When [shuffle] permutes its argument and [glob] reports every file once,
    no file is put into two subsets or twice into one, and every file that is
    put into a subset is one that [glob] reported. *)
Theorem subsets_disjoint (utc_offset : Z) (env : run_env) :
  (∀ seed l, shuffle seed l ≡ₚ l) →
  NoDup (glob env) →
  NoDup (train_files utc_offset env ++ val_files utc_offset env
           ++ test_files utc_offset env)
  ∧ (train_files utc_offset env ++ val_files utc_offset env
       ++ test_files utc_offset env) ⊆ glob env.
Proof.
  intros Hsh Hnd. rewrite subsets_partition_prefix_eq.
  pose proof (dataset_files_permutation utc_offset env Hsh) as Hp.
  split.
  - eapply sublist_NoDup; [| apply sublist_take]. by rewrite Hp.
  - etrans; [apply subseteq_take |]. intros f Hf. by rewrite <- Hp.
Qed.

(** X20: The subsets are filled in the order train, val, test: of [n] matched files
    the first 15000 go to train, the next 7500 to val and the next 7500 to
    test, so a listing of at most 22500 files leaves test empty and one of at
    most 15000 leaves val empty as well. *)
Theorem subset_sizes (utc_offset : Z) (env : run_env) :
  (∀ seed l, shuffle seed l ≡ₚ l) →
  let n := Z.of_nat (length (glob env)) in
  Z.of_nat (length (train_files utc_offset env)) = Z.min 15000 n
  ∧ Z.of_nat (length (val_files utc_offset env)) = Z.max 0 (Z.min 7500 (n - 15000))
  ∧ Z.of_nat (length (test_files utc_offset env)) = Z.max 0 (Z.min 7500 (n - 22500)).
Proof.
  intros Hsh n.
  assert (Hlen : length (dataset_files utc_offset env) = length (glob env))
    by (by rewrite (dataset_files_permutation utc_offset env Hsh)).
  unfold train_files, val_files, test_files.
  destruct bounds_values as (-> & -> & -> & -> & -> & -> & _).
  rewrite !length_slice_Z, Hlen by lia. subst n. lia.
Qed.


Lemma omap_fmap_map {A B C} (f : B → option C) (g : A → B) (h : A → C)
    (l : list A) :
  (∀ x, f (g x) = Some (h x)) → omap f (g <$> l) = h <$> l.
Proof.
  intros Hfg. induction l as [|x l IH]; [done |].
  rewrite !fmap_cons.
  change (omap f (g x :: (g <$> l)))
    with (match f (g x) with
          | Some y => y :: omap f (g <$> l)
          | None => omap f (g <$> l)
          end).
  by rewrite Hfg, IH.
Qed.


Lemma link_destinations_setup (env : run_env) :
  link_destinations (setup env) = [].
Proof. unfold setup. by destruct (subset_exists env). Qed.


(** *** The link names *)

Lemma link_destinations_script (utc_offset : Z) (env : run_env) :
  link_destinations (script utc_offset env)
  = (link_path train_path <$> train_files utc_offset env)
    ++ (link_path val_path <$> val_files utc_offset env)
    ++ (link_path test_path <$> test_files utc_offset env).
Proof.
  unfold script, links, link_destinations.
  rewrite !omap_app. fold (link_destinations (setup env)).
  rewrite link_destinations_setup, app_nil_l.
  by rewrite !(omap_fmap_map _ _ (link_path _)) by done.
Qed.

Lemma same_length_app_inj (h1 h2 a b : string) :
  String.length h1 = String.length h2 → h1 +:+ a = h2 +:+ b → a = b.
Proof.
  revert h2. induction h1 as [|c h1 IH]; intros [|c' h2] Hlen Heq;
    simpl in *; try done.
  injection Heq as _ Heq. apply (IH h2); [lia | done].
Qed.

Lemma link_path_name (dir f g : string) :
  (∀ s t, String.length (sha256_hexdigest s) = String.length (sha256_hexdigest t)) →
  link_path dir f = link_path dir g → path_name f = path_name g.
Proof.
  intros Hlen Heq. unfold link_path in Heq.
  apply (inj (String.app dir)) in Heq.
  apply (inj (String.app "/")) in Heq.
  apply same_length_app_inj in Heq; [| apply Hlen].
  by apply (inj (String.app "-")) in Heq.
Qed.

Lemma link_path_train_val (f g : string) :
  link_path train_path f = link_path val_path g → False.
Proof.
  unfold link_path.
  generalize (sha256_hexdigest (path_stem f) +:+ "-" +:+ path_name f).
  generalize (sha256_hexdigest (path_stem g) +:+ "-" +:+ path_name g).
  intros x y H. vm_compute in H. discriminate H.
Qed.

Lemma link_path_train_test (f g : string) :
  link_path train_path f = link_path test_path g → False.
Proof.
  unfold link_path.
  generalize (sha256_hexdigest (path_stem f) +:+ "-" +:+ path_name f).
  generalize (sha256_hexdigest (path_stem g) +:+ "-" +:+ path_name g).
  intros x y H. vm_compute in H. discriminate H.
Qed.

Lemma link_path_val_test (f g : string) :
  link_path val_path f = link_path test_path g → False.
Proof.
  unfold link_path.
  generalize (sha256_hexdigest (path_stem f) +:+ "-" +:+ path_name f).
  generalize (sha256_hexdigest (path_stem g) +:+ "-" +:+ path_name g).
  intros x y H. vm_compute in H. discriminate H.
Qed.

Lemma NoDup_fmap_via {A B C} (f : A → B) (g : A → C) (l : list A) :
  (∀ x y, f x = f y → g x = g y) → NoDup (g <$> l) → NoDup (f <$> l).
Proof.
  intros Hfg. induction l as [|x l IH]; [constructor |].
  rewrite !fmap_cons, !NoDup_cons. intros [Hx Hl]. split; [| by apply IH].
  intros (y & Hy & Hin)%list_elem_of_fmap. apply Hx.
  apply list_elem_of_fmap. exists y. split; [by apply Hfg | done].
Qed.

Lemma subset_names_NoDup (utc_offset : Z) (env : run_env) :
  (∀ seed l, shuffle seed l ≡ₚ l) →
  NoDup (path_name <$> glob env) →
  NoDup (path_name <$> (train_files utc_offset env
           ++ val_files utc_offset env ++ test_files utc_offset env)).
Proof.
  intros Hsh Hnd.
  rewrite subsets_partition_prefix_eq, fmap_take.
  eapply sublist_NoDup; [| apply sublist_take].
  by rewrite (dataset_files_permutation utc_offset env Hsh).
Qed.

(** X22: When the matched files have distinct names (as the files of one directory
    do), [shuffle] permutes its argument and all digests have one length, no
    two [link] calls of a run have the same destination. *)
Theorem script_link_destinations_distinct (utc_offset : Z) (env : run_env) :
  (∀ seed l, shuffle seed l ≡ₚ l) →
  (∀ s t, String.length (sha256_hexdigest s) = String.length (sha256_hexdigest t)) →
  NoDup (path_name <$> glob env) →
  NoDup (link_destinations (script utc_offset env)).
Proof.
  intros Hsh Hlen Hnd. rewrite link_destinations_script.
  pose proof (subset_names_NoDup utc_offset env Hsh Hnd) as Hall.
  rewrite !fmap_app in Hall.
  apply NoDup_app in Hall as (Htr & _ & (Hva & _ & Hte)%NoDup_app).
  pose proof (λ d, NoDup_fmap_via (link_path d) path_name) as Hvia.
  apply NoDup_app. split; [| split].
  - apply Hvia; [intros x y; by apply link_path_name | exact Htr].
  - intros p (x & -> & _)%list_elem_of_fmap
      [(y & Hxy & _)%list_elem_of_fmap | (y & Hxy & _)%list_elem_of_fmap]%elem_of_app.
    + exact (link_path_train_val x y Hxy).
    + exact (link_path_train_test x y Hxy).
  - apply NoDup_app. split; [| split].
    + apply Hvia; [intros x y; by apply link_path_name | exact Hva].
    + intros p (x & -> & _)%list_elem_of_fmap (y & Hxy & _)%list_elem_of_fmap.
      exact (link_path_val_test x y Hxy).
    + apply Hvia; [intros x y; by apply link_path_name | exact Hte].
Qed.

End SubsetFacts.

(** ** [super_perm] *)

Section SuperPermFacts.
Context {tr : TorchRandom}.

Lemma super_perm_lookup (size i : nat) (p : Z) :
  super_perm size !! i = Some p ↔
  ∃ q, randperm size !! i = Some q
       ∧ p = ((if decide (q = Z.of_nat i) then q + 1 else q) `mod` Z.of_nat size)%Z.
Proof.
  unfold super_perm. rewrite list_lookup_fmap, list_lookup_imap.
  destruct (randperm size !! i) as [q|]; simpl; split.
  - intros [= <-]. by exists q.
  - by intros (? & [= <-] & ->).
  - done.
  - by intros (? & [=] & _).
Qed.

(** X23: When the draw is a permutation of [0 .. size-1] and [size] is at least 2,
    the result has no fixed point, and its entries are positions again. *)
Theorem super_perm_no_fixed_point (size i : nat) (p : Z) :
  (2 ≤ size)%nat →
  randperm size ≡ₚ Z.of_nat <$> seq 0 size →
  super_perm size !! i = Some p →
  (0 ≤ p < Z.of_nat size)%Z ∧ p ≠ Z.of_nat i.
Proof.
  intros Hsize Hperm (q & Hq & ->)%super_perm_lookup.
  assert (Hi : (i < size)%nat).
  { apply lookup_lt_Some in Hq.
    by rewrite Hperm, length_fmap, length_seq in Hq. }
  assert (Hrange : (0 ≤ q < Z.of_nat size)%Z).
  { apply list_elem_of_lookup_2 in Hq. rewrite Hperm in Hq.
    apply list_elem_of_fmap in Hq as (k & -> & Hk).
    apply elem_of_seq in Hk. lia. }
  split; [apply Z.mod_pos_bound; lia |].
  destruct (decide (q = Z.of_nat i)) as [-> | Hne].
  - destruct (decide (i + 1 = size)%nat) as [Hlast | Hlast].
    + replace (Z.of_nat i + 1)%Z with (Z.of_nat size) by lia.
      rewrite Z.mod_same by lia. lia.
    + rewrite Z.mod_small by lia. lia.
  - by rewrite Z.mod_small by lia.
Qed.

(** X24: The result need not be a permutation: when the draw has a fixed point [i]
    and the position after it (the first one, after the last) sits somewhere
    else than at its own place, the result holds that position twice. *)
Theorem super_perm_repeats (size i j : nat) :
  randperm size !! i = Some (Z.of_nat i) →
  randperm size !! j = Some ((Z.of_nat i + 1) `mod` Z.of_nat size)%Z →
  j ≠ i →
  ((Z.of_nat i + 1) `mod` Z.of_nat size)%Z ≠ Z.of_nat j →
  super_perm size !! i = super_perm size !! j ∧ ¬ NoDup (super_perm size).
Proof.
  intros Hi Hj Hne Hnf.
  assert (Hri : super_perm size !! i
                = Some ((Z.of_nat i + 1) `mod` Z.of_nat size)%Z).
  { apply super_perm_lookup. eexists. split; [exact Hi |].
    by rewrite decide_True. }
  assert (Hrj : super_perm size !! j
                = Some ((Z.of_nat i + 1) `mod` Z.of_nat size)%Z).
  { apply super_perm_lookup. eexists. split; [exact Hj |].
    rewrite decide_False by done.
    destruct (decide (size = 0)%nat) as [-> | Hs].
    - by rewrite !Z.mod_0_r.
    - by rewrite Z.mod_mod by lia. }
  split; [by rewrite Hri, Hrj |].
  intros Hnd. apply Hne. symmetry.
  eapply NoDup_lookup; [exact Hnd | exact Hri | exact Hrj].
Qed.

End SuperPermFacts.

(** ** The reductions over dimensions 3 and 4 *)

Section ReductionFacts.
Local Open Scope R_scope.

Lemma h_reduce34_ok (f : list fval → fval) (h : handle) (σ : mem)
    (d : list fval) :
  storage σ !! h_loc h = Some d → (5 ≤ length (h_shape h))%nat →
  h_reduce34 f h σ = (Ok (reduce34 f (h_shape h) d), σ).
Proof.
  intros Hd Hrank. unfold h_reduce34.
  rewrite (bind_ok _ _ _ _ _ (read_ok h σ d Hd)).
  by rewrite decide_True.
Qed.

Lemma h_reduce34_low_rank (f : list fval → fval) (h : handle) (σ : mem)
    (d : list fval) :
  storage σ !! h_loc h = Some d → (length (h_shape h) < 5)%nat →
  h_reduce34 f h σ = (Raise IndexError, σ).
Proof.
  intros Hd Hrank. unfold h_reduce34.
  rewrite (bind_ok _ _ _ _ _ (read_ok h σ d Hd)).
  by rewrite decide_False by lia.
Qed.

Lemma h_zip_ok (g : fval → fval → fval) (h : handle) (σ : mem)
    (d v : list fval) :
  storage σ !! h_loc h = Some d →
  (d' ← read h; write h (zip_with g d' v)) σ
  = (Ok tt, set_data σ (h_loc h) (zip_with g d v)).
Proof. intros Hd. by rewrite (bind_ok _ _ _ _ _ (read_ok h σ d Hd)). Qed.

(** [prep_fd_coord] on a tensor of at least five dimensions: its storage is
    overwritten, first centred, then scaled, and a flat view is returned. *)
Lemma prep_fd_coord_run (h : handle) (σ : mem) (d : list fval) :
  storage σ !! h_loc h = Some d → (5 ≤ length (h_shape h))%nat →
  prep_fd_coord h σ
  = (Ok {| h_loc := h_loc h; h_dev := h_dev h; h_shape := [numel (h_shape h)] |},
     set_data σ (h_loc h)
       (let d1 := zip_with fsub d (reduce34 fmean (h_shape h) d) in
        zip_with fdiv d1 (reduce34 fstd (h_shape h) d1))).
Proof.
  intros Hd Hrank. unfold prep_fd_coord, h_isub_t, h_idiv_t.
  rewrite (bind_ok _ _ _ _ _ (h_reduce34_ok fmean h σ d Hd Hrank)).
  rewrite (bind_ok _ _ _ _ _ (h_zip_ok fsub h σ d _ Hd)).
  rewrite (bind_ok _ _ _ _ _
             (h_reduce34_ok fstd h _ _ (set_data_lookup σ _ _) Hrank)).
  rewrite (bind_ok _ _ _ _ _ (h_zip_ok fdiv h _ _ _ (set_data_lookup σ _ _))).
  by rewrite set_data_twice.
Qed.

Ltac store_step :=
  erewrite bind_ok;
    [| erewrite bind_ok;
         [| apply read_ok; first [eassumption | apply lookup_insert_eq
                                 | by rewrite lookup_insert_ne]];
       reflexivity].

(** The four normalization statements shared by [prep_fd] and [prep_fd_2],
    followed by any continuation. *)
Lemma min_max_steps {A} (h : handle) (σ : mem) (d : list fval) (k : M mem A) :
  storage σ !! h_loc h = Some d →
  (lo ← h_min h; h_isub h lo;; hi ← h_max h; h_idiv h hi;; k) σ
  = match min_max d with
    | Ok d' => k (set_data σ (h_loc h) d')
    | Raise e => (Raise e, σ)
    end.
Proof.
  intros Hd. unfold h_min, h_isub, h_max, h_idiv. destruct d as [| x l].
  - erewrite bind_raise; [reflexivity |].
    erewrite bind_ok; [| by apply read_ok]. reflexivity.
  - do 4 store_step.
    unfold set_data. simpl. by rewrite insert_insert_eq.
Qed.

Lemma prep_fd_2_run (h : handle) (σ : mem) (d : list fval) :
  storage σ !! h_loc h = Some d → (5 ≤ length (h_shape h))%nat →
  prep_fd_2 h σ
  = match min_max (zip_with fsub d (reduce34 fmean (h_shape h) d)) with
    | Ok d' => (Ok h, set_data σ (h_loc h) d')
    | Raise e =>
        (Raise e,
         set_data σ (h_loc h) (zip_with fsub d (reduce34 fmean (h_shape h) d)))
    end.
Proof.
  intros Hd Hrank. unfold prep_fd_2, h_isub_t.
  rewrite (bind_ok _ _ _ _ _ (h_reduce34_ok fmean h σ d Hd Hrank)).
  rewrite (bind_ok _ _ _ _ _ (h_zip_ok fsub h σ d _ Hd)).
  rewrite (min_max_steps h _ _ _ (set_data_lookup σ _ _)).
  destruct (min_max _); [| done].
  by rewrite set_data_twice.
Qed.

(** When dimensions 3 and 4 have size one, every element is a slice of its
    own. *)
Lemma group34_unit (shp : list nat) (i : nat) :
  nth 3 shp 0%nat = 1%nat → nth 4 shp 0%nat = 1%nat → group34 shp i = [i].
Proof.
  intros H3 H4. unfold group34. rewrite H3, H4. simpl. f_equal.
  rewrite !Nat.add_0_r.
  pose proof (Nat.div_mod_eq i (numel (drop 5 shp))). lia.
Qed.

Lemma reduce34_unit (f : list fval → fval) (shp : list nat) (d : list fval) :
  nth 3 shp 0%nat = 1%nat → nth 4 shp 0%nat = 1%nat →
  reduce34 f shp d = (λ x, f [x]) <$> d.
Proof.
  intros H3 H4. unfold reduce34. apply list_eq. intros j.
  rewrite !list_lookup_fmap.
  destruct (decide (j < length d)%nat) as [Hj | Hj].
  - rewrite lookup_seq_lt by done.
    destruct (lookup_lt_is_Some_2 d j Hj) as [x Hx]. rewrite Hx. simpl.
    rewrite (group34_unit shp j H3 H4). unfold values_at. simpl.
    by rewrite Hx.
  - rewrite lookup_seq_ge, (lookup_ge_None_2 d j) by lia. reflexivity.
Qed.

Lemma zip_with_fmap_self {A B C} (g : A → B → C) (f : A → B) (l : list A) :
  zip_with g l (f <$> l) = (λ x, g x (f x)) <$> l.
Proof.
  induction l as [| x l IH]; [done |].
  rewrite !fmap_cons. simpl zip_with. by rewrite IH.
Qed.

Lemma fmean_single (a : R) : fmean [Fin a] = Fin a.
Proof.
  unfold fmean, fsum. simpl.
  destruct (Req_dec_T 1 0) as [H | _]; [lra |]. f_equal. field.
Qed.

(** The deviation of one value is undefined, whatever the value. *)
Lemma fstd_single (x : fval) : fstd [x] = NaN.
Proof.
  destruct x as [a | | |].
  - unfold fstd. rewrite fmean_single. unfold fsum. simpl.
    destruct (Req_dec_T 0 0) as [_ | H]; [| lra].
    replace ((a + - a) * (a + - a) + 0) with 0 by ring.
    by rewrite signed_inf_0.
  - unfold fstd, fmean, fsum. simpl.
    destruct (Rlt_dec 1 0) as [H | _]; [lra | reflexivity].
  - unfold fstd, fmean, fsum. simpl.
    destruct (Rlt_dec 1 0) as [H | _]; [lra | reflexivity].
  - reflexivity.
Qed.

Lemma fdiv_nan (x : fval) : fdiv x NaN = NaN.
Proof. by destruct x. Qed.

(** X26: When dimensions 3 and 4 of a tensor have size one, every slice that
    [prep_fd_coord] standardizes is a single value, whose deviation is
    undefined: the whole tensor is overwritten with NaN, whatever it held,
    and the flat view of it is returned. *)
Theorem prep_fd_coord_unit_slices (h : handle) (σ : mem) (d : list fval) :
  storage σ !! h_loc h = Some d →
  (5 ≤ length (h_shape h))%nat →
  nth 3 (h_shape h) 0%nat = 1%nat → nth 4 (h_shape h) 0%nat = 1%nat →
  prep_fd_coord h σ
  = (Ok {| h_loc := h_loc h; h_dev := h_dev h; h_shape := [numel (h_shape h)] |},
     set_data σ (h_loc h) (replicate (length d) NaN)).
Proof.
  intros Hd Hrank H3 H4. rewrite (prep_fd_coord_run h σ d Hd Hrank).
  do 2 f_equal. cbv zeta.
  rewrite !reduce34_unit, !zip_with_fmap_self, <- list_fmap_compose by done.
  apply const_fmap. intros ? x _. unfold compose. cbv beta.
  by rewrite fstd_single, fdiv_nan.
Qed.

(** X27: [prep_fd_coord] and [prep_fd_2] need a tensor of at least five
    dimensions: on any other they raise [IndexError] and leave the tensor as
    it was. *)
Theorem prep_fd_coord_low_rank (h : handle) (σ : mem) (d : list fval) :
  storage σ !! h_loc h = Some d →
  (length (h_shape h) < 5)%nat →
  prep_fd_coord h σ = (Raise IndexError, σ)
  ∧ prep_fd_2 h σ = (Raise IndexError, σ).
Proof.
  intros Hd Hrank. unfold prep_fd_coord, prep_fd_2. split.
  - by rewrite (bind_raise _ _ _ _ _ (h_reduce34_low_rank fmean h σ d Hd Hrank)).
  - by rewrite (bind_raise _ _ _ _ _ (h_reduce34_low_rank fmean h σ d Hd Hrank)).
Qed.

(** X29: When dimensions 3 and 4 of a non-empty tensor of finite values have
    size one, the mean of every slice is its only value, centring leaves
    zeros only, and [prep_fd_2] overwrites the whole tensor with NaN (zero
    divided by zero) and returns it. *)
Theorem prep_fd_2_unit_slices (h : handle) (σ : mem) (xs : list R) :
  storage σ !! h_loc h = Some (Fin <$> xs) →
  xs ≠ [] →
  (5 ≤ length (h_shape h))%nat →
  nth 3 (h_shape h) 0%nat = 1%nat → nth 4 (h_shape h) 0%nat = 1%nat →
  prep_fd_2 h σ = (Ok h, set_data σ (h_loc h) (replicate (length xs) NaN)).
Proof.
  intros Hd Hne Hrank H3 H4. rewrite (prep_fd_2_run h σ _ Hd Hrank).
  rewrite reduce34_unit, zip_with_fmap_self, <- list_fmap_compose by done.
  assert (Hzero : (λ x, fsub x (fmean [x])) ∘ Fin <$> xs
                  = replicate (length xs) (Fin 0)).
  { apply const_fmap. intros ? a _. unfold compose. cbv beta.
    rewrite fmean_single. simpl.
    f_equal. lra. }
  rewrite Hzero. destruct xs as [| x l]; [done |]. simpl length.
  change (replicate (S (length l)) (Fin 0))
    with (Fin 0 :: replicate (length l) (Fin 0)).
  rewrite <- (fmap_replicate Fin (length l) 0).
  change (Fin 0 :: (Fin <$> replicate (length l) 0))
    with (Fin <$> 0 :: replicate (length l) 0).
  rewrite min_max_const by (by intros y [-> _]%elem_of_replicate).
  by rewrite length_replicate.
Qed.

End ReductionFacts.

(** ** The further statements at sample inputs *)

Section FurtherWitnesses.
Import CRFModule LitRecalibrator CreateDataset.
Local Open Scope R_scope.

Lemma validation_step_needs_crf_witness :
  let self : gmap string (pyval (collab:=Stub.collaborators)) :=
    <["dino" := VNet (λ img, (img, img))]>
      (<["moco" := VNet (λ img, (img, img))]> (<["cfg" := VCfg Stub.cfg]> ∅)) in
  (∃ e g',
     validation_step (collab:=Stub.collaborators) self Stub.one_pixel 0 0%nat
     = (Raise e, g'))
  ∧ ∃ e coords1 coords2 g1 g2,
      rand_coords (collab:=Stub.collaborators) [1; 1; 1; 2]%nat 0%nat
        = (Ok coords1, g1)
      ∧ rand_coords (collab:=Stub.collaborators) [1; 1; 1; 2]%nat g1
        = (Ok coords2, g2)
      ∧ get_crf_fd (collab:=Stub.collaborators) self
          (batch_img Stub.one_pixel) coords1 coords2 = Raise e
      ∧ validation_step (collab:=Stub.collaborators) self Stub.one_pixel 0 0%nat
        = (Raise e, g2).
Proof.
  intros self.
  destruct (validation_step_needs_crf (collab:=Stub.collaborators) self
              Stub.one_pixel 0 0%nat eq_refl) as [Hany Hreach].
  split; [exact Hany |].
  apply (Hreach (λ img, (img, img)) (λ img, (img, img)) Stub.cfg); reflexivity.
Defined.

Lemma rand_coords_range_witness :
  ∃ coords,
    rand_coords (collab:=Stub.collaborators) [1; 1; 1; 2]%nat 0%nat
    = (Ok coords, 1%nat)
    ∧ Forall (Forall (Forall (Forall (λ x, ∃ c, x = Fin c ∧ -1 <= c < 1)))) coords.
Proof.
  apply (rand_coords_range (collab:=Stub.collaborators) [1; 1; 1; 2]%nat 0%nat).
  repeat constructor; exists 0; (split; [reflexivity | lra]).
Defined.

Lemma get_net_fd_rejects_label_witness :
  let self : gmap string (pyval (collab:=Stub.collaborators)) :=
    <["n_classes" := VInt 1]> ∅ in
  ∃ e,
    get_net_fd (collab:=Stub.collaborators) self
      [[[[Fin 3; Fin 4]]]] [[[[Fin 3; Fin 4]]]] [[[5%Z]]] [[[0%Z]]] [] []
    = Raise e.
Proof.
  intros self.
  apply (get_net_fd_rejects_label (collab:=Stub.collaborators) self 1
           [[[[Fin 3; Fin 4]]]] [[[[Fin 3; Fin 4]]]] [[[5%Z]]] [[[0%Z]]] [] []
           [[5%Z]] [5%Z] 5%Z).
  - reflexivity.
  - by left.
  - by left.
  - by left.
  - right. simpl. lia.
Defined.

Lemma prep_fd_range_witness :
  let h := {| h_loc := 0; h_dev := CPU; h_shape := [2%nat] |} in
  let σ := {| storage := {[0%nat := [Fin 0; Fin 2]]}; next_loc := 1; trace := [] |} in
  ∃ h' σ' ys,
    prep_fd h σ = (Ok h', σ')
    ∧ storage σ' !! h_loc h = Some (Fin <$> ys)
    ∧ length ys = length [0; 2]
    ∧ Forall (λ y, 0 <= y <= 1) ys
    ∧ 0 ∈ ys ∧ 1 ∈ ys.
Proof.
  intros h σ. apply (prep_fd_range h σ [0; 2]); [reflexivity | |].
  - exists 0, 2. split; [by left |]. split; [by right; left | lra].
  - apply spread_bounded_small. repeat constructor; lra.
Defined.

Lemma prep_fd_monotone_witness :
  let h := {| h_loc := 0; h_dev := CPU; h_shape := [2%nat] |} in
  let σ := {| storage := {[0%nat := [Fin 0; Fin 2]]}; next_loc := 1; trace := [] |} in
  ∃ h' σ' d a' b',
    prep_fd h σ = (Ok h', σ')
    ∧ storage σ' !! h_loc h = Some d
    ∧ d !! 0%nat = Some (Fin a') ∧ d !! 1%nat = Some (Fin b')
    ∧ (0 <= 2 → a' <= b').
Proof.
  intros h σ. apply (prep_fd_monotone h σ [0; 2] 0 1 0 2);
    [reflexivity | | | reflexivity | reflexivity].
  - exists 0, 2. split; [by left |]. split; [by right; left | lra].
  - apply spread_bounded_small. repeat constructor; lra.
Defined.

Lemma prep_fd_empty_witness :
  let h := {| h_loc := 0; h_dev := CPU; h_shape := [0%nat] |} in
  let σ := {| storage := {[0%nat := []]}; next_loc := 1; trace := [] |} in
  ∃ what, prep_fd h σ = (Raise (RuntimeError what), σ).
Proof. intros h σ. apply (prep_fd_empty h σ). reflexivity. Defined.

Lemma plot_pr_overwrites_cpu_only_witness :
  let preds := {| h_loc := 0; h_dev := CPU; h_shape := [2%nat] |} in
  let targets := {| h_loc := 1; h_dev := CPU; h_shape := [2%nat] |} in
  let σ := {| storage := <[0%nat := Fin <$> [0; 2]]> {[1%nat := [Fin 1; Fin 0]]};
              next_loc := 2; trace := [] |} in
  storage (plot_pr (sk:=Stub.sklearn) preds targets "DINO" σ).2 !! 0%nat
    = Some (Fin <$> unit_scale [0; 2])
  ∧ ∀ l, l ≠ 0%nat → (l < 2)%nat →
      storage (plot_pr (sk:=Stub.sklearn) preds targets "DINO" σ).2 !! l
      = storage σ !! l.
Proof.
  intros preds targets σ.
  apply (plot_pr_overwrites_cpu_only (sk:=Stub.sklearn) preds targets "DINO" σ
           (Fin <$> [0; 2]) (Fin <$> unit_scale [0; 2]) [Fin 1; Fin 0]).
  - reflexivity.
  - apply min_max_varies. exists 0, 2.
    split; [by left |]. split; [by right; left | lra].
  - reflexivity.
  - simpl. lia.
  - simpl. lia.
  - simpl. lia.
Defined.

Lemma plot_pr_nan_average_precision_witness :
  let preds := {| h_loc := 0; h_dev := CPU; h_shape := [2%nat] |} in
  let targets := {| h_loc := 1; h_dev := CPU; h_shape := [2%nat] |} in
  let σ := {| storage := <[0%nat := Fin <$> [0; 2]]> {[1%nat := [Fin 1; Fin 0]]};
              next_loc := 2; trace := [] |} in
  (plot_pr (sk:=Samples.sklearn_nan) preds targets "DINO" σ).1 = Raise ValueError
  ∧ trace (plot_pr (sk:=Samples.sklearn_nan) preds targets "DINO" σ).2
    = trace σ ++ [PrecisionRecallCurve (to_int64 <$> [Fin 1; Fin 0])
                    (Fin <$> unit_scale [0; 2]);
                  AveragePrecisionScore (to_int64 <$> [Fin 1; Fin 0])
                    (Fin <$> unit_scale [0; 2])].
Proof.
  intros preds targets σ.
  apply (plot_pr_nan_average_precision (sk:=Samples.sklearn_nan) preds targets
           "DINO" σ (Fin <$> [0; 2]) (Fin <$> unit_scale [0; 2]) [Fin 1; Fin 0]
           (Fin <$> unit_scale [0; 2]) (Fin <$> unit_scale [0; 2])
           (Fin <$> unit_scale [0; 2])).
  - reflexivity.
  - apply min_max_varies. exists 0, 2.
    split; [by left |]. split; [by right; left | lra].
  - reflexivity.
  - simpl. lia.
  - simpl. lia.
  - reflexivity.
  - reflexivity.
Defined.

Lemma plot_pr_label_percent_witness :
  let preds := {| h_loc := 0; h_dev := CPU; h_shape := [2%nat] |} in
  let targets := {| h_loc := 1; h_dev := CPU; h_shape := [2%nat] |} in
  let σ := {| storage := <[0%nat := Fin <$> [0; 2]]> {[1%nat := [Fin 1; Fin 0]]};
              next_loc := 2; trace := [] |} in
  ∃ percent : Z,
    0.5 * 100 - 1 < IZR percent < 0.5 * 100 + 1
    ∧ (plot_pr (sk:=Stub.sklearn) preds targets "DINO" σ).1 = Ok tt
    ∧ trace (plot_pr (sk:=Stub.sklearn) preds targets "DINO" σ).2
      = trace σ ++ [PrecisionRecallCurve (to_int64 <$> [Fin 1; Fin 0])
                      (Fin <$> unit_scale [0; 2]);
                    AveragePrecisionScore (to_int64 <$> [Fin 1; Fin 0])
                      (Fin <$> unit_scale [0; 2]);
                    PltPlot (Fin <$> unit_scale [0; 2]) (Fin <$> unit_scale [0; 2])
                      ("AP=" +:+ pretty percent +:+ "% " +:+ "DINO")].
Proof.
  intros preds targets σ.
  apply (plot_pr_label_percent (sk:=Stub.sklearn) preds targets
           "DINO" σ (Fin <$> [0; 2]) (Fin <$> unit_scale [0; 2]) [Fin 1; Fin 0]
           (Fin <$> unit_scale [0; 2]) (Fin <$> unit_scale [0; 2])
           (Fin <$> unit_scale [0; 2]) 0.5).
  - reflexivity.
  - apply min_max_varies. exists 0, 2.
    split; [by left |]. split; [by right; left | lra].
  - reflexivity.
  - simpl. lia.
  - simpl. lia.
  - reflexivity.
  - reflexivity.
  - lra.
Defined.

Lemma plot_pr_binarizes_targets_witness :
  let preds := {| h_loc := 0; h_dev := CPU; h_shape := [2%nat] |} in
  let targets := {| h_loc := 1; h_dev := CPU; h_shape := [2%nat] |} in
  let σ := {| storage := <[0%nat := Fin <$> [0; 2]]> {[1%nat := Fin <$> [1; 0.5]]};
              next_loc := 2; trace := [] |} in
  ∃ rest,
    trace (plot_pr (sk:=Stub.sklearn) preds targets "DINO" σ).2
    = trace σ ++ PrecisionRecallCurve
                   ((λ r, if Req_dec_T r 1 then 1%Z else 0%Z) <$> [1; 0.5])
                   (Fin <$> unit_scale [0; 2]) :: rest.
Proof.
  intros preds targets σ.
  apply (plot_pr_binarizes_targets (sk:=Stub.sklearn) preds targets
           "DINO" σ (Fin <$> [0; 2]) (Fin <$> unit_scale [0; 2]) [1; 0.5]).
  - reflexivity.
  - apply min_max_varies. exists 0, 2.
    split; [by left |]. split; [by right; left | lra].
  - reflexivity.
  - simpl. lia.
  - simpl. lia.
  - repeat constructor; lra.
Defined.

Lemma accumulate_spec_witness :
  let outputs := [Stub.step_outputs 1 0 4 7 1; Stub.step_outputs 3 2 2 7 0] in
  let tensor_at l := {| h_loc := l; h_dev := CUDA; h_shape := [2; 1; 1; 1; 1]%nat |} in
  let all_outputs := [("dino_fd", tensor_at 0%nat); ("stego_fd", tensor_at 1%nat);
                      ("moco_fd", tensor_at 2%nat); ("crf_fd", tensor_at 3%nat);
                      ("ld", tensor_at 4%nat)] in
  let σ := {| storage := ∅; next_loc := 0; trace := [] |} in
  let σ' := {| storage := <[4%nat := [Fin 1; Fin 0]]> (<[3%nat := [Fin 7; Fin 7]]>
                (<[2%nat := [Fin 4; Fin 2]]> (<[1%nat := [Fin 0; Fin 2]]>
                   (<[0%nat := [Fin 1; Fin 3]]> ∅))));
               next_loc := 5; trace := [] |} in
  ∃ first rest,
    outputs = first :: rest
    ∧ all_outputs.*1 = first.*1
    ∧ trace σ' = trace σ
    ∧ (∀ l, (l < next_loc σ)%nat → storage σ' !! l = storage σ !! l)
    ∧ ∀ i k h, all_outputs !! i = Some (k, h) →
        ∃ ts, mapM (M:=result) (λ o, dict_get o k) outputs = Ok ts
          ∧ h_loc h = (next_loc σ + i)%nat ∧ h_dev h = CUDA
          ∧ storage σ' !! h_loc h = Some (concat (data <$> ts)).
Proof.
  intros outputs tensor_at all_outputs σ σ'.
  apply (accumulate_spec CUDA outputs σ σ' all_outputs).
  reflexivity.
Defined.

Lemma validation_epoch_end_incomplete_outputs_witness :
  let σ := {| storage := ∅; next_loc := 0; trace := [] |} in
  ∃ e σ',
    validation_epoch_end (sk:=Stub.sklearn) Stub.cfg [] CPU true [] σ = (Raise e, σ')
    ∧ trace σ' = trace σ.
Proof.
  intros σ.
  apply (validation_epoch_end_incomplete_outputs (sk:=Stub.sklearn) Stub.cfg []
           CPU true [] σ).
  by left.
Defined.

Lemma plot_cm_columns_sum_to_one_witness :
  col_sums (cm_normalized [[1; 0]; [2; 0]]%nat) !! 0%nat
  = Some (Fin (if decide (sum_list ((λ row : list nat, default 0%nat (row !! 0%nat))
                                      <$> [[1; 0]; [2; 0]]%nat) = 0%nat)
               then 0 else 1)).
Proof.
  apply (plot_cm_columns_sum_to_one [[1; 0]; [2; 0]]%nat 2 0).
  - done.
  - repeat constructor.
  - lia.
Defined.

Lemma plot_cm_entries_in_unit_interval_witness :
  Forall (Forall (λ x, ∃ r, x = Fin r ∧ 0 <= r <= 1))
    (cm_normalized [[1; 0]; [2; 0]]%nat).
Proof.
  apply (plot_cm_entries_in_unit_interval [[1; 0]; [2; 0]]%nat 2).
  repeat constructor.
Defined.

Lemma subsets_disjoint_witness :
  let env := {| glob := ["/d/b.png"; "/d/a.png"]; subset_exists := false |} in
  NoDup (train_files (py:=Stub.py_stdlib) 0 env ++ val_files (py:=Stub.py_stdlib) 0 env
           ++ test_files (py:=Stub.py_stdlib) 0 env)
  ∧ (train_files (py:=Stub.py_stdlib) 0 env ++ val_files (py:=Stub.py_stdlib) 0 env
       ++ test_files (py:=Stub.py_stdlib) 0 env) ⊆ glob env.
Proof.
  intros env. apply (subsets_disjoint (py:=Stub.py_stdlib) 0 env).
  - intros seed l. apply reverse_Permutation.
  - apply NoDup_cons_2; [| apply NoDup_singleton].
    intros Hin%list_elem_of_singleton. discriminate Hin.
Defined.

Lemma subset_sizes_witness :
  let env := {| glob := ["/d/b.png"; "/d/a.png"]; subset_exists := false |} in
  Z.of_nat (length (train_files (py:=Stub.py_stdlib) 0 env))
    = Z.min 15000 (Z.of_nat (length (glob env)))
  ∧ Z.of_nat (length (val_files (py:=Stub.py_stdlib) 0 env))
    = Z.max 0 (Z.min 7500 (Z.of_nat (length (glob env)) - 15000))
  ∧ Z.of_nat (length (test_files (py:=Stub.py_stdlib) 0 env))
    = Z.max 0 (Z.min 7500 (Z.of_nat (length (glob env)) - 22500)).
Proof.
  intros env. apply (subset_sizes (py:=Stub.py_stdlib) 0 env).
  intros seed l. apply reverse_Permutation.
Defined.

Lemma script_link_destinations_distinct_witness :
  let env := {| glob := ["/d/b.png"; "/d/a.png"]; subset_exists := false |} in
  NoDup (link_destinations (script (py:=Samples.py_digest) 0 env)).
Proof.
  intros env. apply (script_link_destinations_distinct (py:=Samples.py_digest) 0 env).
  - intros seed l. apply reverse_Permutation.
  - reflexivity.
  - apply NoDup_cons_2; [| apply NoDup_singleton].
    intros Hin%list_elem_of_singleton. vm_compute in Hin. discriminate Hin.
Defined.

Lemma super_perm_no_fixed_point_witness :
  (0 ≤ 1 < Z.of_nat 3)%Z ∧ 1%Z ≠ Z.of_nat 0.
Proof.
  apply (super_perm_no_fixed_point (tr:=Samples.draw) 3 0 1).
  - lia.
  - simpl. apply perm_skip, perm_swap.
  - reflexivity.
Defined.

Lemma super_perm_repeats_witness :
  super_perm (tr:=Samples.draw) 3 !! 0%nat = super_perm (tr:=Samples.draw) 3 !! 2%nat
  ∧ ¬ NoDup (super_perm (tr:=Samples.draw) 3).
Proof.
  apply (super_perm_repeats (tr:=Samples.draw) 3 0 2).
  - reflexivity.
  - reflexivity.
  - lia.
  - vm_compute. discriminate.
Defined.

Lemma prep_fd_coord_unit_slices_witness :
  prep_fd_coord Samples.unit_slices (Samples.unit_slices_store (Fin 1) PInf)
  = (Ok {| h_loc := 0; h_dev := CPU; h_shape := [2%nat] |},
     set_data (Samples.unit_slices_store (Fin 1) PInf) 0 [NaN; NaN]).
Proof.
  apply (prep_fd_coord_unit_slices Samples.unit_slices
           (Samples.unit_slices_store (Fin 1) PInf) [Fin 1; PInf]).
  - reflexivity.
  - simpl. lia.
  - reflexivity.
  - reflexivity.
Defined.

Lemma prep_fd_2_unit_slices_witness :
  prep_fd_2 Samples.unit_slices (Samples.unit_slices_store (Fin 1) (Fin 3))
  = (Ok Samples.unit_slices,
     set_data (Samples.unit_slices_store (Fin 1) (Fin 3)) 0 [NaN; NaN]).
Proof.
  apply (prep_fd_2_unit_slices Samples.unit_slices
           (Samples.unit_slices_store (Fin 1) (Fin 3)) [1; 3]).
  - reflexivity.
  - done.
  - simpl. lia.
  - reflexivity.
  - reflexivity.
Defined.

Lemma prep_fd_coord_low_rank_witness :
  let h := {| h_loc := 0; h_dev := CPU; h_shape := [2%nat] |} in
  let σ := {| storage := {[0%nat := [Fin 0; Fin 2]]}; next_loc := 1; trace := [] |} in
  prep_fd_coord h σ = (Raise IndexError, σ)
  ∧ prep_fd_2 h σ = (Raise IndexError, σ).
Proof.
  intros h σ. apply (prep_fd_coord_low_rank h σ [Fin 0; Fin 2]).
  - reflexivity.
  - simpl. lia.
Defined.

End FurtherWitnesses.
